(** * The gallery lightbox of [js/main.js], embedded and verified

    The development follows [initGalleryLightbox] (js/main.js, lines
    253-374): the closure variables it creates, the four closures
    [showLightbox], [closeLightbox], [showNext], [showPrev], the listeners
    it registers, and the page-wide [keydown] handler.

    JavaScript values are modelled as the code uses them:
    - [currentIndex] and every index are integers ([Z]); [%] is the
      truncating remainder [Z.rem];
    - strings are [string];
    - an array read [imageArray[index]] yields [undefined] out of range,
      and the property access that follows on [undefined] throws a
      [TypeError]: closures are computations in a state-and-exception
      monad [Js];
    - DOM nodes are records of the attributes the code reads or writes. *)

From Stdlib Require Import ZArith NArith String Ascii List Bool Lia DecimalString.
Import ListNotations.

Local Open Scope Z_scope.

(** ** Configuration constants (lines 21-58) *)

Module CONFIG.
Module CLASSES.
Definition ACTIVE : string := "active".
End CLASSES.
Module ARIA.
Definition HIDDEN : string := "aria-hidden".
End ARIA.
End CONFIG.

(** ** DOM data *)

(** A [<figure>] ancestor of a gallery image: [figure.querySelector('figcaption')]
    is the first caption element below it, given here by its [textContent]. *)
Record Figure : Type := mkFigure {
  figcaption : option string
}.

(** A gallery [<img>]: what [showLightbox] reads from it. [img_closest_figure]
    is [img.closest('figure')]. *)
Record Img : Type := mkImg {
  img_src : string;
  img_alt : string;
  img_closest_figure : option Figure
}.

(** Elements that can hold keyboard focus or receive events. *)
Inductive Element : Type :=
| El_document
| El_body
| El_galleryImage (index : nat)
| El_overlay
| El_closeBtn
| El_prevBtn
| El_nextBtn.

(** The [div.lightbox] built on lines 261-276, with its two mutable
    children [.lightbox-image] and [.lightbox-caption]. *)
Record Lightbox : Type := mkLightbox {
  classList : list string;
  attr_role : string;
  attr_aria_modal : string;
  attr_aria_label : string;
  attr_aria_hidden : string;
  lightboxImage_src : string;
  lightboxImage_alt : string;
  lightboxCaption_textContent : string
}.

(** Everything the closures of [initGalleryLightbox] read or write. *)
Record State : Type := mkState {
  currentIndex : Z;
  lightbox : Lightbox;
  body_style_overflow : string;
  activeElement : Element
}.

(** ** [DOMTokenList] operations on a class list *)

Definition classList_contains (c : string) (l : list string) : bool :=
  existsb (String.eqb c) l.

Definition classList_add (c : string) (l : list string) : list string :=
  if classList_contains c l then l else (l ++ [c])%list.

Definition classList_remove (c : string) (l : list string) : list string :=
  filter (fun x => negb (String.eqb c x)) l.

(** ** Array read: [a[i]] is [undefined] ([None]) outside [0 .. length-1] *)

Definition array_get {A : Type} (a : list A) (i : Z) : option A :=
  if i <? 0 then None else nth_error a (Z.to_nat i).

(** ** The monad of closures: state plus JavaScript exceptions

    A thrown exception keeps the mutations made before it. *)

Inductive Completion (A : Type) : Type :=
| Normal (a : A)
| Throw (error : string).
Arguments Normal {A} a.
Arguments Throw {A} error.

Definition Js (A : Type) : Type := State -> Completion A * State.

Definition ret {A : Type} (a : A) : Js A := fun s => (Normal a, s).

Definition bind {A B : Type} (m : Js A) (k : A -> Js B) : Js B :=
  fun s =>
    match m s with
    | (Normal a, s') => k a s'
    | (Throw e, s') => (Throw e, s')
    end.

Definition throw {A : Type} (e : string) : Js A := fun s => (Throw e, s).

Definition gets {A : Type} (f : State -> A) : Js A := fun s => (Normal (f s), s).

Definition modify (f : State -> State) : Js unit := fun s => (Normal tt, f s).

Declare Scope js_scope.
Delimit Scope js_scope with js.
Notation "x <- m ;; k" := (bind m (fun x => k))
  (at level 61, m at next level, right associativity) : js_scope.
Notation "m ;; k" := (bind m (fun _ => k))
  (at level 61, right associativity) : js_scope.

(** The state a call leaves behind, and how it completed. *)
Definition exec {A : Type} (m : Js A) (s : State) : State := snd (m s).
Definition completion {A : Type} (m : Js A) (s : State) : Completion A := fst (m s).

(** *** Assignments to the captured nodes *)

Definition with_lightbox (f : Lightbox -> Lightbox) (s : State) : State :=
  {| currentIndex := currentIndex s;
     lightbox := f (lightbox s);
     body_style_overflow := body_style_overflow s;
     activeElement := activeElement s |}.

Definition set_currentIndex (i : Z) : Js unit :=
  modify (fun s =>
    {| currentIndex := i;
       lightbox := lightbox s;
       body_style_overflow := body_style_overflow s;
       activeElement := activeElement s |}).

Definition set_lightboxImage_src (v : string) : Js unit :=
  modify (with_lightbox (fun lb =>
    {| classList := classList lb;
       attr_role := attr_role lb;
       attr_aria_modal := attr_aria_modal lb;
       attr_aria_label := attr_aria_label lb;
       attr_aria_hidden := attr_aria_hidden lb;
       lightboxImage_src := v;
       lightboxImage_alt := lightboxImage_alt lb;
       lightboxCaption_textContent := lightboxCaption_textContent lb |})).

Definition set_lightboxImage_alt (v : string) : Js unit :=
  modify (with_lightbox (fun lb =>
    {| classList := classList lb;
       attr_role := attr_role lb;
       attr_aria_modal := attr_aria_modal lb;
       attr_aria_label := attr_aria_label lb;
       attr_aria_hidden := attr_aria_hidden lb;
       lightboxImage_src := lightboxImage_src lb;
       lightboxImage_alt := v;
       lightboxCaption_textContent := lightboxCaption_textContent lb |})).

Definition set_lightboxCaption_textContent (v : string) : Js unit :=
  modify (with_lightbox (fun lb =>
    {| classList := classList lb;
       attr_role := attr_role lb;
       attr_aria_modal := attr_aria_modal lb;
       attr_aria_label := attr_aria_label lb;
       attr_aria_hidden := attr_aria_hidden lb;
       lightboxImage_src := lightboxImage_src lb;
       lightboxImage_alt := lightboxImage_alt lb;
       lightboxCaption_textContent := v |})).

Definition lightbox_classList_update (f : list string -> list string) : Js unit :=
  modify (with_lightbox (fun lb =>
    {| classList := f (classList lb);
       attr_role := attr_role lb;
       attr_aria_modal := attr_aria_modal lb;
       attr_aria_label := attr_aria_label lb;
       attr_aria_hidden := attr_aria_hidden lb;
       lightboxImage_src := lightboxImage_src lb;
       lightboxImage_alt := lightboxImage_alt lb;
       lightboxCaption_textContent := lightboxCaption_textContent lb |})).

(** [lightbox.setAttribute(CONFIG.ARIA.HIDDEN, v)] *)
Definition lightbox_set_aria_hidden (v : string) : Js unit :=
  modify (with_lightbox (fun lb =>
    {| classList := classList lb;
       attr_role := attr_role lb;
       attr_aria_modal := attr_aria_modal lb;
       attr_aria_label := attr_aria_label lb;
       attr_aria_hidden := v;
       lightboxImage_src := lightboxImage_src lb;
       lightboxImage_alt := lightboxImage_alt lb;
       lightboxCaption_textContent := lightboxCaption_textContent lb |})).

Definition set_body_style_overflow (v : string) : Js unit :=
  modify (fun s =>
    {| currentIndex := currentIndex s;
       lightbox := lightbox s;
       body_style_overflow := v;
       activeElement := activeElement s |}).

(** [el.focus()]: the element becomes [document.activeElement]. *)
Definition focus (el : Element) : Js unit :=
  modify (fun s =>
    {| currentIndex := currentIndex s;
       lightbox := lightbox s;
       body_style_overflow := body_style_overflow s;
       activeElement := el |}).

(** [lightbox.classList.contains(CONFIG.CLASSES.ACTIVE)] *)
Definition isOpen (s : State) : bool :=
  classList_contains CONFIG.CLASSES.ACTIVE (classList (lightbox s)).

Local Open Scope js_scope.

(** ** The closures of [initGalleryLightbox] (lines 286-335)

    [imageArray] is [Array.from(galleryImages)]. The closures exist only
    past the guard of line 255, so [imageArray.length] is not [0] when one
    of them runs and the divisor of [%] is never zero. *)

Section Controller.

Variable imageArray : list Img.

Definition imageArray_length : Z := Z.of_nat (length imageArray).

(** Lines 291-307. *)
Definition showLightbox (index : Z) : Js unit :=
  set_currentIndex index ;;
  match array_get imageArray index with
  | None => throw "TypeError"
  | Some img =>
      let figure := img_closest_figure img in
      let caption :=
        match figure with
        | Some f => figcaption f
        | None => None
        end in
      set_lightboxImage_src (img_src img) ;;
      set_lightboxImage_alt (img_alt img) ;;
      set_lightboxCaption_textContent
        (match caption with
         | Some textContent => textContent
         | None => img_alt img
         end) ;;
      lightbox_classList_update (classList_add CONFIG.CLASSES.ACTIVE) ;;
      lightbox_set_aria_hidden "false" ;;
      set_body_style_overflow "hidden" ;;
      focus El_closeBtn
  end.

(** Lines 313-317. *)
Definition closeLightbox : Js unit :=
  lightbox_classList_update (classList_remove CONFIG.CLASSES.ACTIVE) ;;
  lightbox_set_aria_hidden "true" ;;
  set_body_style_overflow "".

(** Lines 323-326. *)
Definition showNext : Js unit :=
  i <- gets currentIndex ;;
  set_currentIndex (Z.rem (i + 1) imageArray_length) ;;
  i' <- gets currentIndex ;;
  showLightbox i'.

(** Lines 332-335. *)
Definition showPrev : Js unit :=
  i <- gets currentIndex ;;
  set_currentIndex (Z.rem (i - 1 + imageArray_length) imageArray_length) ;;
  i' <- gets currentIndex ;;
  showLightbox i'.

(** ** Listeners (lines 338-373) *)

(** The handler of a gallery image's [keydown] listener (lines 344-349);
    [e.preventDefault()] does not touch the state. *)
Definition onImageKeydown (index : Z) (key : string) : Js unit :=
  if (String.eqb key "Enter" || String.eqb key " ")%bool
  then showLightbox index
  else ret tt.

(** The page-wide [keydown] handler (lines 359-373). *)
Definition onDocumentKeydown (key : string) : Js unit :=
  active <- gets isOpen ;;
  if active then
    if String.eqb key "Escape" then closeLightbox
    else if String.eqb key "ArrowLeft" then showPrev
    else if String.eqb key "ArrowRight" then showNext
    else ret tt
  else ret tt.

End Controller.

(** ** Registration of the listeners (lines 338-373) *)

Inductive EventType : Type := click | keydown.

(** The function passed to [addEventListener]. *)
Inductive Handler : Type :=
| H_imageClick (index : Z)      (* [() => showLightbox(index)], line 343 *)
| H_imageKeydown (index : Z)    (* lines 344-349 *)
| H_closeLightbox               (* lines 353-354 *)
| H_showPrev                    (* line 355 *)
| H_showNext                    (* line 356 *)
| H_documentKeydown.            (* lines 359-373 *)

Record Listener : Type := mkListener {
  listener_target : Element;
  listener_type : EventType;
  listener_handler : Handler
}.

(** A gallery image as an element of the page: the data [showLightbox]
    reads, and the three attributes [initGalleryLightbox] writes. *)
Record GalleryImage : Type := mkGalleryImage {
  image : Img;
  style_cursor : string;
  attr_tabindex : option string;
  image_attr_role : option string
}.

(** The page as [initGalleryLightbox] finds it and leaves it. *)
Record Page : Type := mkPage {
  galleryImages : list GalleryImage;   (* [querySelectorAll(GALLERY_ITEMS)], DOM order *)
  body_appended : list Lightbox;       (* nodes appended to [document.body] *)
  listeners : list Listener;           (* registered listeners, oldest first *)
  page_body_style_overflow : string;
  page_activeElement : Element
}.

(** Lines 261-276: the freshly built modal. *)
Definition new_lightbox : Lightbox :=
  {| classList := ["lightbox"%string];
     attr_role := "dialog";
     attr_aria_modal := "true";
     attr_aria_label := "Image gallery lightbox";
     attr_aria_hidden := "true";
     lightboxImage_src := "";
     lightboxImage_alt := "";
     lightboxCaption_textContent := "" |}.

(** Lines 338-350: [galleryImages.forEach((img, index) => ...)], from
    position [index] on, threading the listener list. *)
Fixpoint galleryImages_forEach (index : nat) (imgs : list GalleryImage)
    (ls : list Listener) : list GalleryImage * list Listener :=
  match imgs with
  | [] => ([], ls)
  | img :: rest =>
      let img' :=
        {| image := image img;
           style_cursor := "pointer";
           attr_tabindex := Some "0"%string;
           image_attr_role := Some "button"%string |} in
      let ls' :=
        (ls ++ [ mkListener (El_galleryImage index) click
                   (H_imageClick (Z.of_nat index));
                 mkListener (El_galleryImage index) keydown
                   (H_imageKeydown (Z.of_nat index)) ])%list in
      let (rest', ls'') := galleryImages_forEach (S index) rest ls' in
      (img' :: rest', ls'')
  end.

(** Lines 353-359: the controls and the page-wide key listener. *)
Definition control_listeners : list Listener :=
  [ mkListener El_closeBtn click H_closeLightbox;
    mkListener El_overlay click H_closeLightbox;
    mkListener El_prevBtn click H_showPrev;
    mkListener El_nextBtn click H_showNext;
    mkListener El_document keydown H_documentKeydown ].

(** [initGalleryLightbox] (lines 253-374): the page it leaves, and the
    closure environment it creates ([None] when it returns on line 255). *)
Definition initGalleryLightbox (p : Page) : Page * option State :=
  if Nat.eqb (length (galleryImages p)) 0 then (p, None)
  else
    let s0 :=
      {| currentIndex := 0;
         lightbox := new_lightbox;
         body_style_overflow := page_body_style_overflow p;
         activeElement := page_activeElement p |} in
    let (imgs, ls) := galleryImages_forEach 0 (galleryImages p) (listeners p) in
    ({| galleryImages := imgs;
        body_appended := (body_appended p ++ [new_lightbox])%list;
        listeners := (ls ++ control_listeners)%list;
        page_body_style_overflow := page_body_style_overflow p;
        page_activeElement := page_activeElement p |},
     Some s0).

(** [Array.from(galleryImages)], line 258. *)
Definition imageArray_of (p : Page) : list Img := map image (galleryImages p).

(** The listeners [initGalleryLightbox] adds to those of the page. *)
Definition listeners_added (p : Page) : list Listener :=
  skipn (length (listeners p)) (listeners (fst (initGalleryLightbox p))).

(** Running a registered handler; [key] is [e.key] of the event (click
    handlers ignore their argument). *)
Definition run_handler (imageArray : list Img) (h : Handler) (key : string) : Js unit :=
  match h with
  | H_imageClick index => showLightbox imageArray index
  | H_imageKeydown index => onImageKeydown imageArray index key
  | H_closeLightbox => closeLightbox
  | H_showPrev => showPrev imageArray
  | H_showNext => showNext imageArray
  | H_documentKeydown => onDocumentKeydown imageArray key
  end.

(** States of the page after [initGalleryLightbox] and any finite number
    of events delivered to the listeners it registered. Between two events
    the browser itself may move the keyboard focus (Tab, a click, a blur):
    the viewer installs no focus trap, so the focus can land on any
    element, whether the viewer is open or closed. *)
Inductive reachable (p : Page) : State -> Prop :=
| reachable_init s0 :
    snd (initGalleryLightbox p) = Some s0 -> reachable p s0
| reachable_event s l key :
    reachable p s ->
    In l (listeners_added p) ->
    reachable p (exec (run_handler (imageArray_of p) (listener_handler l) key) s)
| reachable_focus s el :
    reachable p s ->
    reachable p (exec (focus el) s).

(** ** The specification's view of the state *)

Inductive ViewerState : Type :=
| Closed
| Open (index : Z).

Definition view (s : State) : ViewerState :=
  if isOpen s then Open (currentIndex s) else Closed.

(** [k] successive calls of a closure, each run to completion. *)
Fixpoint calls (k : nat) (m : Js unit) (s : State) : State :=
  match k with
  | O => s
  | S k' => calls k' m (exec m s)
  end.

(** The same [k] calls complete normally, one after the other. *)
Fixpoint calls_normal (k : nat) (m : Js unit) (s : State) : Prop :=
  match k with
  | O => True
  | S k' => completion m s = Normal tt /\ calls_normal k' m (exec m s)
  end.

(** What the viewer shows for an entry: source, accessible name, caption. *)
Definition entry_caption (img : Img) : string :=
  match img_closest_figure img with
  | Some f =>
      match figcaption f with
      | Some textContent => textContent
      | None => img_alt img
      end
  | None => img_alt img
  end.

(** The state [showLightbox] leaves for an entry: every mutable field is
    overwritten, the class list gains [active]. *)
Definition shown (index : Z) (img : Img) (s : State) : State :=
  {| currentIndex := index;
     lightbox :=
       {| classList := classList_add CONFIG.CLASSES.ACTIVE (classList (lightbox s));
          attr_role := attr_role (lightbox s);
          attr_aria_modal := attr_aria_modal (lightbox s);
          attr_aria_label := attr_aria_label (lightbox s);
          attr_aria_hidden := "false";
          lightboxImage_src := img_src img;
          lightboxImage_alt := img_alt img;
          lightboxCaption_textContent := entry_caption img |};
     body_style_overflow := "hidden";
     activeElement := El_closeBtn |}.

(** The open state for an entry of a page initialised by
    [initGalleryLightbox]: [showLightbox] applied to the fresh modal. *)
Definition open_state (index : Z) (img : Img) : State :=
  shown index img
    {| currentIndex := 0;
       lightbox := new_lightbox;
       body_style_overflow := "";
       activeElement := El_body |}.

(** A handler registered for a gallery image carries an index of the
    sequence. *)
Definition handler_index_valid (imageArray : list Img) (h : Handler) : Prop :=
  match h with
  | H_imageClick index | H_imageKeydown index =>
      0 <= index < imageArray_length imageArray
  | _ => True
  end.

(** The invariant of the controller of page [p]: the index is always a
    position of the sequence; an open viewer has the modal of the
    rendering of the current entry and a locked page scroll, with the
    focus wherever the browser last put it; a closed one is hidden, and
    the page scrolls as it did before the viewer was first opened. *)
Definition controller_invariant (p : Page) (s : State) : Prop :=
  0 <= currentIndex s < imageArray_length (imageArray_of p) /\
  ((exists img,
      array_get (imageArray_of p) (currentIndex s) = Some img /\
      lightbox s = lightbox (open_state (currentIndex s) img) /\
      body_style_overflow s = "hidden"%string)
   \/
   (classList (lightbox s) = ["lightbox"%string] /\
    attr_role (lightbox s) = attr_role new_lightbox /\
    attr_aria_modal (lightbox s) = attr_aria_modal new_lightbox /\
    attr_aria_label (lightbox s) = attr_aria_label new_lightbox /\
    attr_aria_hidden (lightbox s) = "true"%string /\
    (body_style_overflow s = ""%string \/
     body_style_overflow s = page_body_style_overflow p))).

(** ** Sample data *)

Definition sample_images : list Img :=
  [ mkImg "images/lobby.jpg" "Hotel lobby" (Some (mkFigure (Some "Our lobby"%string)));
    mkImg "images/pool.jpg" "Pool" (Some (mkFigure None));
    mkImg "images/suite.jpg" "Suite" None ].

Definition sample_page : Page :=
  {| galleryImages := map (fun i => mkGalleryImage i "" None None) sample_images;
     body_appended := [];
     listeners := [];
     page_body_style_overflow := "";
     page_activeElement := El_body |}.

(** A page whose [<body>] carries an inline [overflow] of its own. *)
Definition scrolling_page : Page :=
  {| galleryImages := map (fun i => mkGalleryImage i "" None None) sample_images;
     body_appended := [];
     listeners := [];
     page_body_style_overflow := "scroll";
     page_activeElement := El_body |}.

Definition scrolling_initial : State :=
  {| currentIndex := 0;
     lightbox := new_lightbox;
     body_style_overflow := "scroll";
     activeElement := El_body |}.

Definition empty_page : Page :=
  {| galleryImages := [];
     body_appended := [];
     listeners := [];
     page_body_style_overflow := "";
     page_activeElement := El_body |}.

Definition sample_initial : State :=
  {| currentIndex := 0;
     lightbox := new_lightbox;
     body_style_overflow := "";
     activeElement := El_body |}.

(** * Contact form validation (lines 21-134 and 376-510) *)

(** ** JavaScript strings seen character by character

    A form value is a sequence of UTF-16 code units; [value.length] is the
    length of the sequence and [!value] holds exactly for the empty one. *)

Definition JsString : Type := list N.

(** The code units of a literal written in ASCII. *)
Definition units (s : string) : JsString :=
  map N_of_ascii (list_ascii_of_string s).

(** White space and line terminators of ECMAScript: what [\s] matches and
    what [String.prototype.trim] removes. *)
Definition is_whitespace (c : N) : bool :=
  ((9 <=? c) && (c <=? 13)            (* TAB, LF, VT, FF, CR *)
   || (c =? 32)                       (* SPACE *)
   || (c =? 160)                      (* NO-BREAK SPACE *)
   || (c =? 5760)                     (* U+1680 *)
   || ((8192 <=? c) && (c <=? 8202))  (* U+2000 .. U+200A *)
   || (c =? 8232) || (c =? 8233)      (* U+2028, U+2029 *)
   || (c =? 8239)                     (* U+202F *)
   || (c =? 8287)                     (* U+205F *)
   || (c =? 12288)                    (* U+3000 *)
   || (c =? 65279))%N%bool.           (* U+FEFF *)

Fixpoint trimStart (s : JsString) : JsString :=
  match s with
  | [] => []
  | c :: rest => if is_whitespace c then trimStart rest else s
  end.

Definition trimEnd (s : JsString) : JsString := rev (trimStart (rev s)).

(** [String.prototype.trim] *)
Definition trim (s : JsString) : JsString := trimEnd (trimStart s).

(** ** Regular expressions

    The two patterns of the configuration are anchored at both ends, use
    no flag, no group reference and no look-around: [pattern.test(s)] says
    whether the whole of [s] belongs to the regular language of the
    pattern. The test is computed with derivatives. *)

Inductive RegExp : Type :=
| Re_fail
| Re_empty
| Re_class (p : N -> bool)
| Re_seq (r1 r2 : RegExp)
| Re_alt (r1 r2 : RegExp)
| Re_star (r : RegExp).

(** [r+] and [r?] *)
Definition Re_plus (r : RegExp) : RegExp := Re_seq r (Re_star r).
Definition Re_opt (r : RegExp) : RegExp := Re_alt r Re_empty.

(** The language of a pattern. *)
Inductive Matches : RegExp -> JsString -> Prop :=
| M_empty : Matches Re_empty []
| M_class (p : N -> bool) (c : N) :
    p c = true -> Matches (Re_class p) [c]
| M_seq (r1 r2 : RegExp) (s1 s2 : JsString) :
    Matches r1 s1 -> Matches r2 s2 -> Matches (Re_seq r1 r2) (s1 ++ s2)
| M_alt_l (r1 r2 : RegExp) (s : JsString) :
    Matches r1 s -> Matches (Re_alt r1 r2) s
| M_alt_r (r1 r2 : RegExp) (s : JsString) :
    Matches r2 s -> Matches (Re_alt r1 r2) s
| M_star_nil (r : RegExp) : Matches (Re_star r) []
| M_star_cons (r : RegExp) (s1 s2 : JsString) :
    Matches r s1 -> Matches (Re_star r) s2 -> Matches (Re_star r) (s1 ++ s2).

Fixpoint nullable (r : RegExp) : bool :=
  match r with
  | Re_fail => false
  | Re_empty => true
  | Re_class _ => false
  | Re_seq r1 r2 => nullable r1 && nullable r2
  | Re_alt r1 r2 => nullable r1 || nullable r2
  | Re_star _ => true
  end.

Fixpoint derive (c : N) (r : RegExp) : RegExp :=
  match r with
  | Re_fail => Re_fail
  | Re_empty => Re_fail
  | Re_class p => if p c then Re_empty else Re_fail
  | Re_seq r1 r2 =>
      if nullable r1
      then Re_alt (Re_seq (derive c r1) r2) (derive c r2)
      else Re_seq (derive c r1) r2
  | Re_alt r1 r2 => Re_alt (derive c r1) (derive c r2)
  | Re_star r1 => Re_seq (derive c r1) (Re_star r1)
  end.

(** [/^r$/.test(s)] *)
Fixpoint regexp_test (r : RegExp) (s : JsString) : bool :=
  match s with
  | [] => nullable r
  | c :: rest => regexp_test (derive c r) rest
  end.

(** ** [CONFIG.VALIDATION], [CONFIG.CLASSES] and [CONFIG.ARIA] entries of
    the form (lines 28-57) *)

Module VALIDATION.

(** [[^\s@]] *)
Definition not_space_or_at (c : N) : bool :=
  negb (is_whitespace c || (c =? 64)%N).

(** [[0-9\s\-()]] *)
Definition phone_character (c : N) : bool :=
  ((48 <=? c) && (c <=? 57) || is_whitespace c
   || (c =? 45) || (c =? 40) || (c =? 41))%N%bool.

(** [/^[^\s@]+@[^\s@]+\.[^\s@]+$/] *)
Definition EMAIL_PATTERN : RegExp :=
  Re_seq (Re_plus (Re_class not_space_or_at))
    (Re_seq (Re_class (N.eqb 64))
       (Re_seq (Re_plus (Re_class not_space_or_at))
          (Re_seq (Re_class (N.eqb 46))
             (Re_plus (Re_class not_space_or_at))))).

(** [/^[\+]?[0-9\s\-()]+$/] *)
Definition PHONE_PATTERN : RegExp :=
  Re_seq (Re_opt (Re_class (N.eqb 43)))
    (Re_plus (Re_class phone_character)).

Definition NAME_MIN_LENGTH : nat := 2.
Definition MESSAGE_MIN_LENGTH : nat := 10.
Definition MESSAGE_MAX_LENGTH : nat := 1000.

End VALIDATION.

Module FORM_CLASSES.
Definition ERROR : string := "error".
Definition SUCCESS : string := "success".
Definition LOADING : string := "loading".
End FORM_CLASSES.

(** Lines 94 and 101. *)
Definition isValidEmail (email : JsString) : bool :=
  regexp_test VALIDATION.EMAIL_PATTERN email.

Definition isValidPhone (phone : JsString) : bool :=
  regexp_test VALIDATION.PHONE_PATTERN phone.

(** ** Form fields and their error elements *)

(** An [<input>] or [<textarea>] of the form. *)
Record Field : Type := mkField {
  field_id : string;
  field_name : string;
  field_value : JsString;
  field_defaultValue : JsString;
  field_required : bool;                 (* [hasAttribute('required')] *)
  field_aria_invalid : option string;
  field_classList : list string
}.

(** The elements of the document that carry an [id], in tree order, each
    with its [textContent]. The list is flat: the error elements of a form
    are taken to be leaves that hold text only and do not contain one
    another, as an error message slot next to its field is; the text of
    an element that would enclose one of them is not represented. *)
Definition Elements : Type := list (string * string).

(** [document.getElementById(id)]: the first element with that id. *)
Fixpoint getElementById (id : string) (doc : Elements) : option string :=
  match doc with
  | [] => None
  | (id', text) :: rest =>
      if String.eqb id id' then Some text else getElementById id rest
  end.

(** [document.getElementById(id).textContent = text] for an existing
    element. *)
Fixpoint set_textContent (id : string) (text : string) (doc : Elements) : Elements :=
  match doc with
  | [] => []
  | (id', text') :: rest =>
      if String.eqb id id' then (id', text) :: rest
      else (id', text') :: set_textContent id text rest
  end.

(** [`${field.id}-error`] *)
Definition errorId (field : Field) : string := (field_id field ++ "-error")%string.

Definition field_set_marks (field : Field) (invalid : string)
    (classes : list string) : Field :=
  {| field_id := field_id field;
     field_name := field_name field;
     field_value := field_value field;
     field_defaultValue := field_defaultValue field;
     field_required := field_required field;
     field_aria_invalid := Some invalid;
     field_classList := classes |}.

(** Lines 109-118. *)
Definition showFieldError (field : Field) (message : string) (doc : Elements)
    : Field * Elements :=
  match getElementById (errorId field) doc with
  | Some _ =>
      (field_set_marks field "true"
         (classList_add FORM_CLASSES.ERROR (field_classList field)),
       set_textContent (errorId field) message doc)
  | None => (field, doc)
  end.

(** Lines 125-134. *)
Definition clearFieldError (field : Field) (doc : Elements) : Field * Elements :=
  match getElementById (errorId field) doc with
  | Some _ =>
      (field_set_marks field "false"
         (classList_remove FORM_CLASSES.ERROR (field_classList field)),
       set_textContent (errorId field) "" doc)
  | None => (field, doc)
  end.

(** A number inside a template literal. *)
Definition decimal (n : nat) : string := NilEmpty.string_of_uint (Nat.to_uint n).

(** Lines 391-427: the verdict and the message, before any marking. *)
Definition field_verdict (field : Field) : bool * string :=
  let value := trim (field_value field) in
  let fieldName := field_name field in
  let '(isValid, errorMessage) :=
    if String.eqb fieldName "name" then
      if (length value <? VALIDATION.NAME_MIN_LENGTH)%nat
      then (false,
            ("Name must be at least " ++ decimal VALIDATION.NAME_MIN_LENGTH
             ++ " characters")%string)
      else (true, ""%string)
    else if String.eqb fieldName "email" then
      if negb (isValidEmail value)
      then (false, "Please enter a valid email address"%string)
      else (true, ""%string)
    else if String.eqb fieldName "phone" then
      if negb (isValidPhone value)
      then (false, "Please enter a valid phone number"%string)
      else (true, ""%string)
    else if String.eqb fieldName "message" then
      if (length value <? VALIDATION.MESSAGE_MIN_LENGTH)%nat
      then (false,
            ("Message must be at least " ++ decimal VALIDATION.MESSAGE_MIN_LENGTH
             ++ " characters")%string)
      else if (VALIDATION.MESSAGE_MAX_LENGTH <? length value)%nat
      then (false,
            ("Message must not exceed " ++ decimal VALIDATION.MESSAGE_MAX_LENGTH
             ++ " characters")%string)
      else (true, ""%string)
    else (true, ""%string) in
  if (field_required field && match value with [] => true | _ => false end)%bool
  then (false, "This field is required"%string)
  else (isValid, errorMessage).

(** [validateField] (lines 385-436): the returned verdict, the field and
    the document as the call leaves them. *)
Definition validateField (field : Field) (doc : Elements)
    : bool * (Field * Elements) :=
  let '(isValid, errorMessage) := field_verdict field in
  (isValid,
   if isValid then clearFieldError field doc
   else showFieldError field errorMessage doc).

(** ** Submission (lines 461-509) *)

Record StatusElement : Type := mkStatus {
  status_textContent : string;
  status_className : string
}.

Record Button : Type := mkButton {
  button_aria_busy : option string;
  button_disabled : bool;
  button_classList : list string
}.

(** The form as [initFormValidation] captured it: [fields] is the static
    list [form.querySelectorAll('input[required], textarea[required]')];
    [formStatus] and [submitButton] are [null] ([None]) when the page has
    no such element. *)
Record Form : Type := mkForm {
  fields : list Field;
  elements : Elements;
  formStatus : option StatusElement;
  submitButton : option Button
}.

(** Lines 465-470: every field is validated, in order. *)
Fixpoint validate_fields (fs : list Field) (doc : Elements)
    : bool * (list Field * Elements) :=
  match fs with
  | [] => (true, ([], doc))
  | field :: rest =>
      let '(valid, (field', doc')) := validateField field doc in
      let '(isFormValid, (rest', doc'')) := validate_fields rest doc' in
      (valid && isFormValid, (field' :: rest', doc''))
  end.

(** Line 498: [fields.forEach((field) => clearFieldError(field))]. *)
Fixpoint clear_fields (fs : list Field) (doc : Elements) : list Field * Elements :=
  match fs with
  | [] => ([], doc)
  | field :: rest =>
      let '(field', doc') := clearFieldError field doc in
      let '(rest', doc'') := clear_fields rest doc' in
      (field' :: rest', doc'')
  end.

(** How the synchronous part of the submit handler ends. *)
Inductive SubmitStep : Type :=
| Rejected      (* [return] of line 475 *)
| Awaiting      (* suspended at the [await] of line 492 *)
| SubmitThrow (error : string).

(** Lines 462-492, up to the [await]. The [FormData] copy of lines 479-483
    is a local object that is never read again. *)
Definition onSubmit_start (form : Form) : SubmitStep * Form :=
  let '(isFormValid, (fields', doc')) :=
    validate_fields (fields form) (elements form) in
  if negb isFormValid then
    match formStatus form with
    | None =>
        (SubmitThrow "TypeError",
         mkForm fields' doc' (formStatus form) (submitButton form))
    | Some _ =>
        (Rejected,
         mkForm fields' doc'
           (Some (mkStatus "Please correct the errors above"
                    ("form-status " ++ FORM_CLASSES.ERROR)))
           (submitButton form))
    end
  else
    match submitButton form with
    | None =>
        (SubmitThrow "TypeError",
         mkForm fields' doc' (formStatus form) (submitButton form))
    | Some button =>
        (Awaiting,
         mkForm fields' doc' (formStatus form)
           (Some (mkButton (Some "true"%string) true
                    (classList_add FORM_CLASSES.LOADING (button_classList button)))))
    end.

(** [form.reset()] on the captured fields: each value returns to its
    default. *)
Definition reset_field (field : Field) : Field :=
  {| field_id := field_id field;
     field_name := field_name field;
     field_value := field_defaultValue field;
     field_defaultValue := field_defaultValue field;
     field_required := field_required field;
     field_aria_invalid := field_aria_invalid field;
     field_classList := field_classList field |}.

(** The [finally] block, lines 503-508. *)
Definition submit_finally (form : Form) : Completion unit * Form :=
  match submitButton form with
  | None => (Throw "TypeError", form)
  | Some button =>
      (Normal tt,
       mkForm (fields form) (elements form) (formStatus form)
         (Some (mkButton (Some "false"%string) false
                  (classList_remove FORM_CLASSES.LOADING (button_classList button)))))
  end.

(** Lines 494-508, the continuation once the timer of line 492 has
    resolved the promise. Without a status element the first statement of
    the [try] throws, the [catch] throws again on the same [null], and the
    [finally] still runs. *)
Definition onSubmit_resume (form : Form) : Completion unit * Form :=
  match formStatus form with
  | None =>
      let '(c, form') := submit_finally form in
      (Throw "TypeError", form')
  | Some _ =>
      let '(fields', doc') :=
        clear_fields (map reset_field (fields form)) (elements form) in
      submit_finally
        (mkForm fields' doc'
           (Some (mkStatus "Thank you! Your message has been sent successfully."
                    ("form-status " ++ FORM_CLASSES.SUCCESS)))
           (submitButton form))
  end.

(** ** Sample form *)

Definition sample_email_field : Field :=
  {| field_id := "email";
     field_name := "email";
     field_value := units "  guest@example.com ";
     field_defaultValue := [];
     field_required := true;
     field_aria_invalid := None;
     field_classList := [] |}.

Definition sample_name_field : Field :=
  {| field_id := "name";
     field_name := "name";
     field_value := units "A";
     field_defaultValue := [];
     field_required := true;
     field_aria_invalid := None;
     field_classList := [] |}.

Definition sample_elements : Elements :=
  [ ("name-error", ""); ("email-error", "") ]%string.

(** A form while its request is pending: the button is busy, and the name
    field still shows the error of an earlier validation. *)
Definition pending_form : Form :=
  {| fields :=
       [ mkField "name" "name" (units "Ada Lovelace") [] true
           (Some "true"%string) ["input"%string; "error"%string] ];
     elements := [ ("name-error", "Name must be at least 2 characters") ]%string;
     formStatus := Some (mkStatus "" "form-status");
     submitButton :=
       Some (mkButton (Some "true"%string) true ["btn"%string; "loading"%string]) |}.

Definition sample_form : Form :=
  {| fields := [sample_name_field; sample_email_field];
     elements := sample_elements;
     formStatus := Some (mkStatus "" "form-status");
     submitButton := Some (mkButton None false []) |}.

(** * Mobile menu (lines 144-185) *)

(** [classList.toggle(c)] *)
Definition classList_toggle (c : string) (l : list string) : list string :=
  if classList_contains c l then classList_remove c l else classList_add c l.

(** What the menu handlers read and write: the [aria-expanded] attribute
    of the hamburger button and the class list of the [nav]. *)
Record Menu : Type := mkMenu {
  hamburger_aria_expanded : string;
  nav_classList : list string
}.

(** [initMobileMenu]: [None] when the page has no [nav] (line 146);
    otherwise the button is created collapsed and the [nav] is left as the
    markup has it. *)
Definition initMobileMenu (nav : option (list string)) : option Menu :=
  match nav with
  | None => None
  | Some classes => Some (mkMenu "false" classes)
  end.

(** Lines 163-167; [String(!isExpanded)] is ["true"] or ["false"]. *)
Definition hamburger_click (m : Menu) : Menu :=
  let isExpanded := String.eqb (hamburger_aria_expanded m) "true" in
  {| hamburger_aria_expanded := if negb isExpanded then "true" else "false";
     nav_classList := classList_toggle CONFIG.CLASSES.ACTIVE (nav_classList m) |}.

(** Lines 172-175. *)
Definition navLink_click (m : Menu) : Menu :=
  {| hamburger_aria_expanded := "false";
     nav_classList := classList_remove CONFIG.CLASSES.ACTIVE (nav_classList m) |}.

(** Lines 179-184. *)
Definition menu_keydown (key : string) (m : Menu) : Menu :=
  if (String.eqb key "Escape"
      && classList_contains CONFIG.CLASSES.ACTIVE (nav_classList m))%bool
  then {| hamburger_aria_expanded := "false";
          nav_classList := classList_remove CONFIG.CLASSES.ACTIVE (nav_classList m) |}
  else m.

Inductive MenuEvent : Type :=
| HamburgerClick
| NavLinkClick
| MenuKeydown (key : string).

Definition menu_handle (e : MenuEvent) (m : Menu) : Menu :=
  match e with
  | HamburgerClick => hamburger_click m
  | NavLinkClick => navLink_click m
  | MenuKeydown key => menu_keydown key m
  end.

(** The events of a list, delivered in order. *)
Definition menu_run (events : list MenuEvent) (m : Menu) : Menu :=
  fold_left (fun m' e => menu_handle e m') events m.

(** * Lazy loading (lines 520-552) *)

Module LAZY_CLASSES.
Definition VISIBLE : string := "visible".
End LAZY_CLASSES.

(** An [img[loading="lazy"]]: its [src], its [data-src] when the
    attribute is present, its classes, and whether [imageObserver] still
    observes it. *)
Record LazyImage : Type := mkLazyImage {
  lazy_src : string;
  dataset_src : option string;
  lazy_classList : list string;
  observed : bool
}.

(** An [IntersectionObserverEntry]; the target is given by its position
    among the lazy images. *)
Record Entry : Type := mkEntry {
  entry_target : nat;
  isIntersecting : bool
}.

(** Lines 532-541 for one intersecting image. [img.dataset.src] is falsy
    when the attribute is absent or empty. *)
Definition load_image (img : LazyImage) : LazyImage :=
  let '(src, data) :=
    match dataset_src img with
    | Some v => if String.eqb v "" then (lazy_src img, dataset_src img)
                else (v, None)
    | None => (lazy_src img, None)
    end in
  {| lazy_src := src;
     dataset_src := data;
     lazy_classList := classList_add LAZY_CLASSES.VISIBLE (lazy_classList img);
     observed := false |}.

(** The element at a position replaced by its image under [f]; other
    positions, and a position outside the list, are left alone. *)
Fixpoint update_at {A : Type} (f : A -> A) (i : nat) (l : list A) : list A :=
  match l, i with
  | [], _ => []
  | x :: rest, O => f x :: rest
  | x :: rest, S i' => x :: update_at f i' rest
  end.

(** Lines 529-544: the observer callback. *)
Fixpoint imageObserver_callback (entries : list Entry) (imgs : list LazyImage)
    : list LazyImage :=
  match entries with
  | [] => imgs
  | entry :: rest =>
      imageObserver_callback rest
        (if isIntersecting entry
         then update_at load_image (entry_target entry) imgs
         else imgs)
  end.

(** [initLazyLoading]: without [IntersectionObserver] nothing is observed
    (line 522); otherwise every lazy image is (line 551). *)
Definition initLazyLoading (supported : bool) (imgs : list LazyImage)
    : list LazyImage :=
  if negb supported then imgs
  else map (fun img => {| lazy_src := lazy_src img;
                          dataset_src := dataset_src img;
                          lazy_classList := lazy_classList img;
                          observed := true |}) imgs.

(** * Properties *)

(** ** Class lists *)

Lemma classList_contains_add (c : string) (l : list string) :
  classList_contains c (classList_add c l) = true.
Proof.
  unfold classList_add.
  destruct (classList_contains c l) eqn:E; [exact E|].
  unfold classList_contains. rewrite existsb_app. simpl.
  rewrite String.eqb_refl. now rewrite orb_true_r.
Qed.

Lemma classList_contains_remove (c : string) (l : list string) :
  classList_contains c (classList_remove c l) = false.
Proof.
  unfold classList_contains, classList_remove.
  induction l as [|x l IH]; simpl; [reflexivity|].
  destruct (String.eqb c x) eqn:E; simpl; [exact IH|].
  now rewrite E.
Qed.

Lemma classList_remove_idempotent (c : string) (l : list string) :
  classList_remove c (classList_remove c l) = classList_remove c l.
Proof.
  unfold classList_remove.
  induction l as [|x l IH]; simpl; [reflexivity|].
  destruct (String.eqb c x) eqn:E; simpl; [exact IH|].
  rewrite E. simpl. now rewrite IH.
Qed.

Lemma classList_remove_absent (c : string) (l : list string) :
  classList_contains c l = false -> classList_remove c l = l.
Proof.
  unfold classList_contains, classList_remove.
  induction l as [|x l IH]; simpl; [reflexivity|].
  intros H. apply orb_false_iff in H as [Hx Hl].
  rewrite Hx. simpl. now rewrite IH.
Qed.

(** ** Array reads *)

Lemma array_get_in_range {A : Type} (a : list A) (i : Z) :
  0 <= i < Z.of_nat (length a) -> exists x, array_get a i = Some x.
Proof.
  intros [Hlo Hhi]. unfold array_get.
  destruct (Z.ltb_spec i 0) as [Hneg|_]; [lia|].
  destruct (nth_error a (Z.to_nat i)) as [x|] eqn:E.
  - now exists x.
  - apply nth_error_None in E. lia.
Qed.

Lemma array_get_Some_range {A : Type} (a : list A) (i : Z) (x : A) :
  array_get a i = Some x -> 0 <= i < Z.of_nat (length a).
Proof.
  unfold array_get.
  destruct (Z.ltb_spec i 0) as [Hneg|Hpos]; [discriminate|].
  intros E.
  assert (Hn : (Z.to_nat i < length a)%nat)
    by (apply nth_error_Some; rewrite E; discriminate).
  lia.
Qed.

(** ** The closures, run *)

Section ControllerFacts.

Variable imageArray : list Img.

Local Abbreviation n := (imageArray_length imageArray).

Lemma showLightbox_run (index : Z) (img : Img) (s : State) :
  array_get imageArray index = Some img ->
  showLightbox imageArray index s = (Normal tt, shown index img s).
Proof.
  intros H. unfold showLightbox, bind, set_currentIndex, modify.
  rewrite H. unfold shown, entry_caption.
  destruct (img_closest_figure img) as [f|]; [destruct (figcaption f)|];
    reflexivity.
Qed.

Lemma showLightbox_undefined (index : Z) (s : State) :
  array_get imageArray index = None ->
  completion (showLightbox imageArray index) s = Throw "TypeError".
Proof.
  intros H. unfold completion, showLightbox, bind, set_currentIndex, modify.
  now rewrite H.
Qed.

Lemma showNext_run (s : State) :
  showNext imageArray s =
  showLightbox imageArray (Z.rem (currentIndex s + 1) n)
    (exec (set_currentIndex (Z.rem (currentIndex s + 1) n)) s).
Proof. reflexivity. Qed.

Lemma showPrev_run (s : State) :
  showPrev imageArray s =
  showLightbox imageArray (Z.rem (currentIndex s - 1 + n) n)
    (exec (set_currentIndex (Z.rem (currentIndex s - 1 + n) n)) s).
Proof. reflexivity. Qed.

Lemma closeLightbox_run (s : State) :
  closeLightbox s =
  (Normal tt,
   {| currentIndex := currentIndex s;
      lightbox :=
        {| classList := classList_remove CONFIG.CLASSES.ACTIVE (classList (lightbox s));
           attr_role := attr_role (lightbox s);
           attr_aria_modal := attr_aria_modal (lightbox s);
           attr_aria_label := attr_aria_label (lightbox s);
           attr_aria_hidden := "true";
           lightboxImage_src := lightboxImage_src (lightbox s);
           lightboxImage_alt := lightboxImage_alt (lightbox s);
           lightboxCaption_textContent := lightboxCaption_textContent (lightbox s) |};
      body_style_overflow := "";
      activeElement := activeElement s |}).
Proof. reflexivity. Qed.

Lemma view_shown (index : Z) (img : Img) (s : State) :
  view (shown index img s) = Open index.
Proof.
  unfold view, isOpen. simpl. now rewrite classList_contains_add.
Qed.

Lemma view_Open (s : State) (i : Z) :
  view s = Open i -> isOpen s = true /\ currentIndex s = i.
Proof.
  unfold view. destruct (isOpen s); [|discriminate].
  intros H. injection H as H. now split.
Qed.

(** [showNext] on a state whose index is valid. *)
Lemma showNext_valid (s : State) :
  0 <= currentIndex s < n ->
  exists img,
    array_get imageArray ((currentIndex s + 1) mod n) = Some img /\
    showNext imageArray s =
    (Normal tt,
     shown ((currentIndex s + 1) mod n) img
       (exec (set_currentIndex ((currentIndex s + 1) mod n)) s)).
Proof.
  intros Hi. rewrite showNext_run.
  rewrite Z.rem_mod_nonneg by lia.
  destruct (array_get_in_range imageArray ((currentIndex s + 1) mod n))
    as [img Himg].
  { apply Z.mod_pos_bound. unfold imageArray_length in Hi. lia. }
  exists img. split; [exact Himg|]. now apply showLightbox_run.
Qed.

Lemma showPrev_valid (s : State) :
  0 <= currentIndex s < n ->
  exists img,
    array_get imageArray ((currentIndex s - 1 + n) mod n) = Some img /\
    showPrev imageArray s =
    (Normal tt,
     shown ((currentIndex s - 1 + n) mod n) img
       (exec (set_currentIndex ((currentIndex s - 1 + n) mod n)) s)).
Proof.
  intros Hi. rewrite showPrev_run.
  rewrite Z.rem_mod_nonneg by lia.
  destruct (array_get_in_range imageArray ((currentIndex s - 1 + n) mod n))
    as [img Himg].
  { apply Z.mod_pos_bound. unfold imageArray_length in Hi. lia. }
  exists img. split; [exact Himg|]. now apply showLightbox_run.
Qed.

End ControllerFacts.

(** C1. For a gallery of length [n >= 1] and an open state [Open i] with
    [0 <= i < n], [showNext] completes and leaves [Open ((i+1) mod n)],
    [showPrev] completes and leaves [Open ((i-1+n) mod n)]; at the last
    index [showNext] lands on [0], and at index [0] [showPrev] lands on
    [n-1]. *)
Theorem next_previous_wraparound (imageArray : list Img) (s : State) (i : Z) :
  1 <= imageArray_length imageArray ->
  view s = Open i ->
  0 <= i < imageArray_length imageArray ->
  (completion (showNext imageArray) s = Normal tt /\
   view (exec (showNext imageArray) s)
     = Open ((i + 1) mod imageArray_length imageArray)) /\
  (completion (showPrev imageArray) s = Normal tt /\
   view (exec (showPrev imageArray) s)
     = Open ((i - 1 + imageArray_length imageArray) mod imageArray_length imageArray)) /\
  (i = imageArray_length imageArray - 1 ->
   view (exec (showNext imageArray) s) = Open 0) /\
  (i = 0 ->
   view (exec (showPrev imageArray) s) = Open (imageArray_length imageArray - 1)).
Proof.
  intros Hn Hview Hi.
  apply view_Open in Hview as [_ Hcur]. subst i.
  destruct (showNext_valid imageArray s Hi) as [imgN [_ HN]].
  destruct (showPrev_valid imageArray s Hi) as [imgP [_ HP]].
  unfold completion, exec. rewrite HN, HP. simpl.
  rewrite !view_shown.
  repeat split.
  - intros E. rewrite E.
    replace (imageArray_length imageArray - 1 + 1)
      with (1 * imageArray_length imageArray) by lia.
    now rewrite Z.mod_mul by lia.
  - intros E. rewrite E.
    f_equal. rewrite Z.mod_small; lia.
Qed.

Lemma next_previous_wraparound_witness :
  view (exec (showLightbox sample_images 2) sample_initial) = Open 2 /\
  view (exec (showNext sample_images)
          (exec (showLightbox sample_images 2) sample_initial)) = Open 0 /\
  view (exec (showPrev sample_images)
          (exec (showLightbox sample_images 0) sample_initial)) = Open 2.
Proof.
  split; [reflexivity|]. split.
  - apply (next_previous_wraparound sample_images
             (exec (showLightbox sample_images 2) sample_initial) 2);
      [vm_compute; discriminate | reflexivity | vm_compute; split; [discriminate | reflexivity] | reflexivity].
  - apply (next_previous_wraparound sample_images
             (exec (showLightbox sample_images 0) sample_initial) 0);
      [vm_compute; discriminate | reflexivity | vm_compute; split; [discriminate | reflexivity] | reflexivity].
Defined.

(** C2. Immediately after [showLightbox i] for a valid index [i], the
    viewer shows entry [i]: its source, its alternative text as accessible
    name, and as caption the text of the entry's caption element when there
    is one, else the alternative text. *)
Theorem open_renders_entry (imageArray : list Img) (s : State) (i : Z) :
  0 <= i < imageArray_length imageArray ->
  exists img,
    array_get imageArray i = Some img /\
    completion (showLightbox imageArray i) s = Normal tt /\
    let s' := exec (showLightbox imageArray i) s in
    lightboxImage_src (lightbox s') = img_src img /\
    lightboxImage_alt (lightbox s') = img_alt img /\
    (forall f textContent,
       img_closest_figure img = Some f -> figcaption f = Some textContent ->
       lightboxCaption_textContent (lightbox s') = textContent) /\
    ((img_closest_figure img = None \/
      exists f, img_closest_figure img = Some f /\ figcaption f = None) ->
     lightboxCaption_textContent (lightbox s') = img_alt img).
Proof.
  intros Hi.
  destruct (array_get_in_range imageArray i Hi) as [img Himg].
  exists img. split; [exact Himg|].
  unfold completion, exec. rewrite (showLightbox_run imageArray i img s Himg).
  simpl. unfold entry_caption.
  repeat split.
  - intros f c Hf Hc. now rewrite Hf, Hc.
  - intros [Hnone | [f [Hf Hc]]].
    + now rewrite Hnone.
    + now rewrite Hf, Hc.
Qed.

Lemma open_renders_entry_witness :
  exists img,
    array_get sample_images 1 = Some img /\
    completion (showLightbox sample_images 1) sample_initial = Normal tt /\
    let s' := exec (showLightbox sample_images 1) sample_initial in
    lightboxImage_src (lightbox s') = img_src img /\
    lightboxImage_alt (lightbox s') = img_alt img /\
    (forall f textContent,
       img_closest_figure img = Some f -> figcaption f = Some textContent ->
       lightboxCaption_textContent (lightbox s') = textContent) /\
    ((img_closest_figure img = None \/
      exists f, img_closest_figure img = Some f /\ figcaption f = None) ->
     lightboxCaption_textContent (lightbox s') = img_alt img).
Proof.
  apply (open_renders_entry sample_images sample_initial 1).
  vm_compute. split; [discriminate | reflexivity].
Defined.

(** The three cases of the caption on the sample gallery. *)
Example caption_of_figcaption :
  lightboxCaption_textContent
    (lightbox (exec (showLightbox sample_images 0) sample_initial)) = "Our lobby"%string.
Proof. reflexivity. Qed.

Example caption_without_figcaption :
  lightboxCaption_textContent
    (lightbox (exec (showLightbox sample_images 1) sample_initial)) = "Pool"%string.
Proof. reflexivity. Qed.

Example caption_without_figure :
  lightboxCaption_textContent
    (lightbox (exec (showLightbox sample_images 2) sample_initial)) = "Suite"%string.
Proof. reflexivity. Qed.

(** ** The listeners [initGalleryLightbox] registers *)

Lemma galleryImages_forEach_listeners (imgs : list GalleryImage) :
  forall (k : nat) (ls : list Listener),
  exists added,
    snd (galleryImages_forEach k imgs ls) = (ls ++ added)%list /\
    Forall (fun l =>
              exists j, (k <= j < k + length imgs)%nat /\
                (listener_handler l = H_imageClick (Z.of_nat j) \/
                 listener_handler l = H_imageKeydown (Z.of_nat j))) added.
Proof.
  induction imgs as [|img rest IH]; intros k ls; simpl.
  - exists []. split; [now rewrite app_nil_r | constructor].
  - match goal with
    | |- context [galleryImages_forEach (S k) rest ?l] =>
        destruct (IH (S k) l) as [added [Heq Hall]];
        destruct (galleryImages_forEach (S k) rest l) as [rest' ls''] eqn:E
    end.
    simpl in *. subst ls''.
    eexists. split.
    + rewrite <- app_assoc. reflexivity.
    + simpl. constructor; [|constructor].
      * exists k. split; [lia | now left].
      * exists k. split; [lia | now right].
      * eapply Forall_impl; [|exact Hall].
        intros l [j [Hj Hl]]. exists j. split; [lia | exact Hl].
Qed.

Lemma listeners_added_valid (p : Page) (l : Listener) :
  In l (listeners_added p) ->
  handler_index_valid (imageArray_of p) (listener_handler l).
Proof.
  unfold listeners_added, initGalleryLightbox.
  destruct (Nat.eqb (length (galleryImages p)) 0) eqn:E0; simpl.
  - rewrite skipn_all. intros [].
  - destruct (galleryImages_forEach_listeners (galleryImages p) 0 (listeners p))
      as [added [Heq Hall]].
    destruct (galleryImages_forEach 0 (galleryImages p) (listeners p))
      as [imgs ls] eqn:E.
    simpl in *. subst ls.
    rewrite <- app_assoc, skipn_app, skipn_all, Nat.sub_diag. simpl.
    intros Hin. apply in_app_or in Hin as [Hin | Hin].
    + rewrite Forall_forall in Hall.
      destruct (Hall l Hin) as [j [Hj Hl]].
      unfold handler_index_valid, imageArray_length, imageArray_of.
      rewrite length_map.
      destruct Hl as [Hl | Hl]; rewrite Hl; lia.
    + simpl in Hin.
      repeat (destruct Hin as [Hin | Hin]; [subst l; exact I|]).
      destruct Hin.
Qed.

(** ** The invariant *)

Lemma classList_add_active_fresh :
  classList_add CONFIG.CLASSES.ACTIVE ["lightbox"%string]
  = ["lightbox"%string; "active"%string].
Proof. reflexivity. Qed.

(** From a state of the invariant, rendering an entry gives [open_state]. *)
Lemma shown_from_invariant (p : Page) (s s' : State) (index : Z) (img : Img) :
  controller_invariant p s ->
  lightbox s' = lightbox s ->
  shown index img s' = open_state index img.
Proof.
  intros [_ [[img0 [_ [Hs _]]] | [Hcl [Hr [Hm [Hl _]]]]]] Hlb;
    unfold open_state, shown; rewrite Hlb.
  - rewrite Hs. reflexivity.
  - simpl. rewrite Hcl, Hr, Hm, Hl. reflexivity.
Qed.

Lemma invariant_open_state (p : Page) (index : Z) (img : Img) :
  array_get (imageArray_of p) index = Some img ->
  controller_invariant p (open_state index img).
Proof.
  intros H. split.
  - exact (array_get_Some_range _ _ _ H).
  - left. exists img. split; [exact H|]. split; reflexivity.
Qed.

Lemma invariant_showLightbox (p : Page) (s : State) (index : Z) :
  0 <= index < imageArray_length (imageArray_of p) ->
  controller_invariant p s ->
  controller_invariant p (exec (showLightbox (imageArray_of p) index) s).
Proof.
  intros Hi Hinv.
  destruct (array_get_in_range (imageArray_of p) index Hi) as [img Himg].
  unfold exec. rewrite (showLightbox_run _ _ _ _ Himg). cbn [snd].
  rewrite (shown_from_invariant p s s index img Hinv eq_refl).
  now apply invariant_open_state.
Qed.

Lemma invariant_closeLightbox (p : Page) (s : State) :
  controller_invariant p s ->
  controller_invariant p (exec closeLightbox s).
Proof.
  intros [Hi Hcase]. unfold exec. rewrite closeLightbox_run. simpl.
  split; [exact Hi|]. right.
  destruct Hcase as [[img [_ [Hs _]]] | [Hcl [Hr [Hm [Hl _]]]]].
  - rewrite Hs. simpl. repeat split; auto.
  - rewrite Hcl. simpl. repeat split; auto.
Qed.

Lemma invariant_showNext (p : Page) (s : State) :
  controller_invariant p s ->
  controller_invariant p (exec (showNext (imageArray_of p)) s).
Proof.
  intros Hinv. pose proof Hinv as [Hi _].
  destruct (showNext_valid (imageArray_of p) s Hi) as [img [Himg Hrun]].
  unfold exec at 1. rewrite Hrun. cbn [snd].
  erewrite (shown_from_invariant p s); [|exact Hinv|reflexivity].
  now apply invariant_open_state.
Qed.

Lemma invariant_showPrev (p : Page) (s : State) :
  controller_invariant p s ->
  controller_invariant p (exec (showPrev (imageArray_of p)) s).
Proof.
  intros Hinv. pose proof Hinv as [Hi _].
  destruct (showPrev_valid (imageArray_of p) s Hi) as [img [Himg Hrun]].
  unfold exec at 1. rewrite Hrun. cbn [snd].
  erewrite (shown_from_invariant p s); [|exact Hinv|reflexivity].
  now apply invariant_open_state.
Qed.

Lemma invariant_run_handler (p : Page) (h : Handler) (key : string) (s : State) :
  handler_index_valid (imageArray_of p) h ->
  controller_invariant p s ->
  controller_invariant p (exec (run_handler (imageArray_of p) h key) s).
Proof.
  intros Hh Hinv. destruct h; simpl in *.
  - now apply invariant_showLightbox.
  - unfold onImageKeydown.
    destruct (String.eqb key "Enter" || String.eqb key " ")%bool.
    + now apply invariant_showLightbox.
    + exact Hinv.
  - now apply invariant_closeLightbox.
  - now apply invariant_showPrev.
  - now apply invariant_showNext.
  - unfold onDocumentKeydown, exec, bind, gets. simpl.
    destruct (isOpen s); [|exact Hinv].
    destruct (String.eqb key "Escape");
      [now apply invariant_closeLightbox|].
    destruct (String.eqb key "ArrowLeft");
      [now apply invariant_showPrev|].
    destruct (String.eqb key "ArrowRight");
      [now apply invariant_showNext|].
    exact Hinv.
Qed.

Lemma invariant_initial (p : Page) (s0 : State) :
  snd (initGalleryLightbox p) = Some s0 -> controller_invariant p s0.
Proof.
  unfold initGalleryLightbox.
  destruct (Nat.eqb (length (galleryImages p)) 0) eqn:E0; simpl; [discriminate|].
  destruct (galleryImages_forEach 0 (galleryImages p) (listeners p)).
  simpl. intros H. injection H as H. subst s0.
  apply Nat.eqb_neq in E0.
  split; simpl.
  - unfold imageArray_length, imageArray_of. rewrite length_map. lia.
  - right. repeat split; auto.
Qed.

Lemma reachable_invariant (p : Page) (s : State) :
  reachable p s -> controller_invariant p s.
Proof.
  induction 1 as [s0 H0 | s l key Hreach IH Hin | s el Hreach IH].
  - now apply invariant_initial.
  - apply invariant_run_handler; [|exact IH].
    now apply listeners_added_valid.
  - exact IH.
Qed.

(** C3. In every state reached from the initial closed state by events on
    the registered entry points (opening from a gallery image, closing,
    next, previous, page-wide keys), an open viewer has a current index that
    is a position of the gallery sequence. *)
Theorem open_index_valid (p : Page) (s : State) :
  reachable p s ->
  isOpen s = true ->
  0 <= currentIndex s < imageArray_length (imageArray_of p).
Proof.
  intros Hreach _. exact (proj1 (reachable_invariant p s Hreach)).
Qed.

Lemma open_index_valid_witness :
  let s := exec (showNext (imageArray_of sample_page))
             (exec (showLightbox (imageArray_of sample_page) 2) sample_initial) in
  isOpen s = true /\ 0 <= currentIndex s < 3.
Proof.
  split; [reflexivity|].
  apply (open_index_valid sample_page); [|reflexivity].
  apply (reachable_event sample_page _
           (mkListener El_nextBtn click H_showNext) ""%string).
  - apply (reachable_event sample_page _
             (mkListener (El_galleryImage 2) click (H_imageClick 2)) ""%string).
    + apply reachable_init. reflexivity.
    + vm_compute. tauto.
  - vm_compute. tauto.
Defined.

(** ** Closing *)

(** On a closed viewer of an initialised page, [closeLightbox] writes the
    values the modal already has; only the inline overflow of the body can
    change. *)
Lemma closed_reachable_close (p : Page) (s : State) :
  reachable p s ->
  isOpen s = false ->
  exec closeLightbox s
  = {| currentIndex := currentIndex s;
       lightbox := lightbox s;
       body_style_overflow := "";
       activeElement := activeElement s |} /\
  (body_style_overflow s = ""%string \/
   body_style_overflow s = page_body_style_overflow p).
Proof.
  intros Hreach Hclosed.
  destruct (reachable_invariant p s Hreach)
    as [_ [[img [_ [Hs _]]] | [Hcl [_ [_ [_ [Hh Hov]]]]]]].
  - unfold isOpen in Hclosed. rewrite Hs in Hclosed. discriminate Hclosed.
  - split; [|exact Hov].
    unfold exec. rewrite closeLightbox_run. cbn [snd].
    destruct s as [ci lb ov ae]. destruct lb. simpl in *.
    subst. reflexivity.
Qed.

(** C4, as the specification states it, fails: on a page whose body
    carries an inline overflow, the viewer is closed right after
    [initGalleryLightbox], and [closeLightbox] there is not a no-op, since
    it erases that overflow. *)
Lemma close_noop_counterexample :
  ~ (reachable scrolling_page scrolling_initial ->
     isOpen scrolling_initial = false ->
     closeLightbox scrolling_initial = (Normal tt, scrolling_initial)).
Proof.
  intros H.
  assert (Hreach : reachable scrolling_page scrolling_initial)
    by (apply reachable_init; reflexivity).
  specialize (H Hreach eq_refl).
  apply (f_equal (fun r => body_style_overflow (snd r))) in H.
  vm_compute in H. discriminate H.
Qed.

(** C4, amended. [closeLightbox] is idempotent: on every state it
    completes without an exception, and a second call leaves exactly the
    state the first one left. On a closed viewer of an initialised page it
    leaves the index, the modal and the focus as they are and sets the
    inline overflow of the body to the empty string: it changes nothing at
    all when that overflow is already empty, which is so whenever the body
    had no inline overflow when the page was initialised. *)
Theorem close_idempotent :
  (forall s : State,
     completion closeLightbox s = Normal tt /\
     completion closeLightbox (exec closeLightbox s) = Normal tt /\
     exec closeLightbox (exec closeLightbox s) = exec closeLightbox s) /\
  (forall (p : Page) (s : State),
     reachable p s ->
     isOpen s = false ->
     completion closeLightbox s = Normal tt /\
     exec closeLightbox s
     = {| currentIndex := currentIndex s;
          lightbox := lightbox s;
          body_style_overflow := "";
          activeElement := activeElement s |} /\
     (body_style_overflow s = ""%string ->
      closeLightbox s = (Normal tt, s)) /\
     (page_body_style_overflow p = ""%string ->
      closeLightbox s = (Normal tt, s))).
Proof.
  split.
  - intros s. repeat split.
    unfold exec. rewrite !closeLightbox_run. cbn [snd]. simpl.
    now rewrite classList_remove_idempotent.
  - intros p s Hreach Hclosed.
    destruct (closed_reachable_close p s Hreach Hclosed) as [Hexec Hov].
    assert (Hnoop : body_style_overflow s = ""%string ->
                    closeLightbox s = (Normal tt, s)).
    { intros Hempty.
      rewrite (surjective_pairing (closeLightbox s)).
      change (snd (closeLightbox s)) with (exec closeLightbox s).
      rewrite Hexec. unfold closeLightbox, bind, lightbox_classList_update,
        lightbox_set_aria_hidden, set_body_style_overflow, modify. cbn [fst].
      destruct s as [ci lb ov ae]. simpl in *. now subst ov. }
    split; [reflexivity|]. split; [exact Hexec|]. split; [exact Hnoop|].
    intros Hpage. apply Hnoop.
    destruct Hov as [Ho | Ho]; [exact Ho | now rewrite Ho].
Qed.

Lemma close_idempotent_witness :
  closeLightbox sample_initial = (Normal tt, sample_initial) /\
  exec closeLightbox
    (exec closeLightbox (exec (showLightbox sample_images 1) sample_initial))
  = exec closeLightbox (exec (showLightbox sample_images 1) sample_initial) /\
  body_style_overflow (exec closeLightbox scrolling_initial) = ""%string.
Proof.
  assert (Hsample : reachable sample_page sample_initial)
    by (apply reachable_init; reflexivity).
  assert (Hscroll : reachable scrolling_page scrolling_initial)
    by (apply reachable_init; reflexivity).
  destruct (proj2 close_idempotent sample_page sample_initial Hsample eq_refl)
    as [_ [_ [_ Hnoop]]].
  destruct (proj2 close_idempotent scrolling_page scrolling_initial Hscroll eq_refl)
    as [_ [Hexec _]].
  split; [exact (Hnoop eq_refl)|]. split.
  - apply (proj1 close_idempotent).
  - rewrite Hexec. reflexivity.
Defined.

(** C5, as the specification states it, fails: after [closeLightbox] the
    source, accessible name and caption of the last image shown are still
    in the viewer. *)
Lemma close_clears_attributes_counterexample :
  ~ (let s := exec (showLightbox sample_images 0) sample_initial in
     isOpen s = true ->
     let s' := exec closeLightbox s in
     view s' = Closed /\
     body_style_overflow s' = ""%string /\
     lightboxImage_src (lightbox s') = ""%string /\
     lightboxImage_alt (lightbox s') = ""%string /\
     lightboxCaption_textContent (lightbox s') = ""%string).
Proof.
  intros H. specialize (H eq_refl).
  destruct H as [_ [_ [Hsrc _]]]. vm_compute in Hsrc. discriminate Hsrc.
Qed.

(** C5, amended. For every open state [closeLightbox] sets the viewer to
    closed (no [active] class, [aria-hidden] true) and restores page
    scrolling; the rendered source, accessible name and caption, and the
    current index, stay as they were. *)
Theorem close_hides_and_keeps_attributes (s : State) :
  isOpen s = true ->
  completion closeLightbox s = Normal tt /\
  view (exec closeLightbox s) = Closed /\
  attr_aria_hidden (lightbox (exec closeLightbox s)) = "true"%string /\
  body_style_overflow (exec closeLightbox s) = ""%string /\
  lightboxImage_src (lightbox (exec closeLightbox s)) = lightboxImage_src (lightbox s) /\
  lightboxImage_alt (lightbox (exec closeLightbox s)) = lightboxImage_alt (lightbox s) /\
  lightboxCaption_textContent (lightbox (exec closeLightbox s))
    = lightboxCaption_textContent (lightbox s) /\
  currentIndex (exec closeLightbox s) = currentIndex s.
Proof.
  intros _. unfold exec, completion. rewrite closeLightbox_run. cbn [fst snd].
  repeat split.
  unfold view, isOpen. simpl. now rewrite classList_contains_remove.
Qed.

Lemma close_hides_and_keeps_attributes_witness :
  let s := exec (showLightbox sample_images 0) sample_initial in
  isOpen s = true /\
  view (exec closeLightbox s) = Closed /\
  lightboxImage_src (lightbox (exec closeLightbox s)) = "images/lobby.jpg"%string.
Proof.
  split; [reflexivity|].
  pose proof (close_hides_and_keeps_attributes
                (exec (showLightbox sample_images 0) sample_initial) eq_refl)
    as [_ [Hv [_ [_ [Hsrc _]]]]].
  split; [exact Hv | rewrite Hsrc; reflexivity].
Defined.

(** ** Keys while the viewer is closed *)

(** C7. While the viewer is closed, a [keydown] delivered to the page-wide
    handler changes nothing and throws nothing, whatever the key, so in
    particular for ArrowRight, ArrowLeft and Escape; the same three keys
    reaching a gallery image's own handler change nothing either. *)
Theorem closed_keys_ignored (imageArray : list Img) (s : State) (key : string) :
  isOpen s = false ->
  onDocumentKeydown imageArray key s = (Normal tt, s) /\
  (In key ["ArrowRight"%string; "ArrowLeft"%string; "Escape"%string] ->
   forall index, onImageKeydown imageArray index key s = (Normal tt, s)).
Proof.
  intros Hclosed. split.
  - unfold onDocumentKeydown, bind, gets. now rewrite Hclosed.
  - intros Hkey index. simpl in Hkey.
    destruct Hkey as [<- | [<- | [<- | []]]]; reflexivity.
Qed.

Lemma closed_keys_ignored_witness :
  isOpen sample_initial = false /\
  onDocumentKeydown sample_images "ArrowRight" sample_initial = (Normal tt, sample_initial) /\
  onDocumentKeydown sample_images "ArrowLeft" sample_initial = (Normal tt, sample_initial) /\
  onDocumentKeydown sample_images "Escape" sample_initial = (Normal tt, sample_initial).
Proof.
  split; [reflexivity|].
  split; [|split].
  - apply (closed_keys_ignored sample_images sample_initial "ArrowRight"); reflexivity.
  - apply (closed_keys_ignored sample_images sample_initial "ArrowLeft"); reflexivity.
  - apply (closed_keys_ignored sample_images sample_initial "Escape"); reflexivity.
Defined.

(** ** Opening and closing as a modal *)

(** C8. For a valid index, [showLightbox] marks the modal visible
    ([aria-hidden] false), disables page scrolling and focuses the close
    control; [closeLightbox] marks it hidden again ([aria-hidden] true) and
    restores page scrolling. *)
Theorem open_close_modal (imageArray : list Img) (s : State) (i : Z) :
  0 <= i < imageArray_length imageArray ->
  let opened := exec (showLightbox imageArray i) s in
  let closed := exec closeLightbox opened in
  (completion (showLightbox imageArray i) s = Normal tt /\
   isOpen opened = true /\
   attr_aria_hidden (lightbox opened) = "false"%string /\
   body_style_overflow opened = "hidden"%string /\
   activeElement opened = El_closeBtn) /\
  (completion closeLightbox opened = Normal tt /\
   isOpen closed = false /\
   attr_aria_hidden (lightbox closed) = "true"%string /\
   body_style_overflow closed = ""%string).
Proof.
  intros Hi.
  destruct (array_get_in_range imageArray i Hi) as [img Himg].
  unfold exec, completion.
  rewrite (showLightbox_run imageArray i img s Himg). cbn [fst snd].
  rewrite closeLightbox_run. cbn [fst snd].
  split.
  - repeat split. unfold isOpen. simpl. apply classList_contains_add.
  - repeat split. unfold isOpen. simpl. apply classList_contains_remove.
Qed.

Lemma open_close_modal_witness :
  let opened := exec (showLightbox sample_images 1) sample_initial in
  activeElement opened = El_closeBtn /\
  body_style_overflow opened = "hidden"%string /\
  body_style_overflow (exec closeLightbox opened) = ""%string.
Proof.
  assert (Hi : 0 <= 1 < imageArray_length sample_images)
    by (vm_compute; split; [discriminate | reflexivity]).
  pose proof (open_close_modal sample_images sample_initial 1 Hi)
    as [[_ [_ [_ [Hov Hfocus]]]] [_ [_ [_ Hrestored]]]].
  split; [exact Hfocus|]. split; [exact Hov | exact Hrestored].
Defined.

(** ** Initialisation without images *)

(** C9. On a page without gallery images [initGalleryLightbox] returns at
    once: the page is left as it was (nothing appended to the body, no
    attribute set, no listener added) and no closure state is created. *)
Theorem init_without_images (p : Page) :
  galleryImages p = [] ->
  initGalleryLightbox p = (p, None) /\
  body_appended (fst (initGalleryLightbox p)) = body_appended p /\
  listeners (fst (initGalleryLightbox p)) = listeners p /\
  listeners_added p = [] /\
  (forall s, ~ reachable p s).
Proof.
  intros Hempty.
  assert (Hinit : initGalleryLightbox p = (p, None))
    by (unfold initGalleryLightbox; now rewrite Hempty).
  assert (Hadded : listeners_added p = []).
  { unfold listeners_added. rewrite Hinit. cbn [fst]. apply skipn_all. }
  split; [exact Hinit|]. rewrite Hinit. cbn [fst].
  repeat split; auto.
  intros s Hreach. induction Hreach as [s0 H0 | s l key _ _ Hin | s el _ IH].
  - rewrite Hinit in H0. discriminate H0.
  - rewrite Hadded in Hin. destruct Hin.
  - exact IH.
Qed.

Lemma init_without_images_witness :
  initGalleryLightbox empty_page = (empty_page, None).
Proof.
  apply (init_without_images empty_page). reflexivity.
Defined.

(** With at least one image the modal is built, appended and wired. *)
Lemma init_with_images (p : Page) :
  galleryImages p <> [] ->
  snd (initGalleryLightbox p)
  = Some {| currentIndex := 0;
            lightbox := new_lightbox;
            body_style_overflow := page_body_style_overflow p;
            activeElement := page_activeElement p |} /\
  body_appended (fst (initGalleryLightbox p))
  = (body_appended p ++ [new_lightbox])%list.
Proof.
  intros Hne. unfold initGalleryLightbox.
  destruct (galleryImages p) as [|g gs] eqn:E; [contradiction|].
  cbn [length Nat.eqb].
  destruct (galleryImages_forEach 0 (g :: gs) (listeners p)).
  split; reflexivity.
Qed.

Example init_sample_listeners :
  map listener_handler (listeners (fst (initGalleryLightbox sample_page)))
  = [ H_imageClick 0; H_imageKeydown 0;
      H_imageClick 1; H_imageKeydown 1;
      H_imageClick 2; H_imageKeydown 2;
      H_closeLightbox; H_closeLightbox; H_showPrev; H_showNext;
      H_documentKeydown ].
Proof. reflexivity. Qed.

(** ** Focus on navigation *)

(** C10. [showNext] and [showPrev] on an open viewer also end with the
    focus on the close control, wherever it was before, since both finish
    with [showLightbox]. *)
Theorem navigation_focuses_close (imageArray : list Img) (s : State) (i : Z) :
  view s = Open i ->
  0 <= i < imageArray_length imageArray ->
  (completion (showNext imageArray) s = Normal tt /\
   activeElement (exec (showNext imageArray) s) = El_closeBtn) /\
  (completion (showPrev imageArray) s = Normal tt /\
   activeElement (exec (showPrev imageArray) s) = El_closeBtn).
Proof.
  intros Hview Hi.
  apply view_Open in Hview as [_ Hcur]. subst i.
  destruct (showNext_valid imageArray s Hi) as [imgN [_ HN]].
  destruct (showPrev_valid imageArray s Hi) as [imgP [_ HP]].
  unfold completion, exec. rewrite HN, HP. cbn [fst snd].
  repeat split.
Qed.

Lemma navigation_focuses_close_witness :
  let s := exec (focus El_nextBtn)
             (exec (showLightbox sample_images 0) sample_initial) in
  activeElement s = El_nextBtn /\
  activeElement (exec (showNext sample_images) s) = El_closeBtn /\
  activeElement (exec (showPrev sample_images) s) = El_closeBtn.
Proof.
  assert (Hi : 0 <= 0 < imageArray_length sample_images)
    by (vm_compute; split; [discriminate | reflexivity]).
  pose proof (navigation_focuses_close sample_images
                (exec (focus El_nextBtn)
                   (exec (showLightbox sample_images 0) sample_initial))
                0 eq_refl Hi) as [[_ HN] [_ HP]].
  split; [reflexivity|]. split; [exact HN | exact HP].
Defined.

(** ** Repeated [showNext] *)

Lemma classList_add_idempotent (c : string) (l : list string) :
  classList_add c (classList_add c l) = classList_add c l.
Proof.
  unfold classList_add at 1. now rewrite classList_contains_add.
Qed.

(** Rendering over a rendering is the later rendering. *)
Lemma shown_shown (j i : Z) (img2 img1 : Img) (s : State) :
  shown j img2 (shown i img1 s) = shown j img2 s.
Proof.
  unfold shown. simpl. now rewrite classList_add_idempotent.
Qed.

Section Cycle.

Variable imageArray : list Img.

Local Abbreviation n := (imageArray_length imageArray).

(** After [k+1] calls from a valid index [i], the viewer renders entry
    [(i + k + 1) mod n], and each call completed normally. *)
Lemma calls_showNext (k : nat) :
  forall s : State,
    0 <= currentIndex s < n ->
    exists img,
      array_get imageArray ((currentIndex s + Z.of_nat (S k)) mod n) = Some img /\
      calls (S k) (showNext imageArray) s
      = shown ((currentIndex s + Z.of_nat (S k)) mod n) img s /\
      calls_normal (S k) (showNext imageArray) s.
Proof.
  induction k as [|k IH]; intros s Hi.
  - destruct (showNext_valid imageArray s Hi) as [img [Himg Hrun]].
    exists img. change (Z.of_nat 1) with 1.
    split; [exact Himg|].
    cbn [calls calls_normal]. unfold exec, completion. rewrite Hrun.
    cbn [fst snd]. split; [reflexivity | now split].
  - destruct (showNext_valid imageArray s Hi) as [img1 [Himg1 Hrun]].
    assert (Hs1 : exec (showNext imageArray) s
                  = shown ((currentIndex s + 1) mod n) img1 s)
      by (unfold exec; rewrite Hrun; reflexivity).
    assert (Hi1 : 0 <= currentIndex (exec (showNext imageArray) s) < n)
      by (rewrite Hs1; exact (array_get_Some_range _ _ _ Himg1)).
    destruct (IH _ Hi1) as [img [Himg [Hcalls Hnormal]]].
    assert (Hidx : (currentIndex (exec (showNext imageArray) s) + Z.of_nat (S k)) mod n
                   = (currentIndex s + Z.of_nat (S (S k))) mod n).
    { rewrite Hs1. cbn [shown currentIndex].
      rewrite Z.add_mod_idemp_l by lia. f_equal. lia. }
    rewrite Hidx in Himg, Hcalls.
    exists img. split; [exact Himg|]. split.
    + change (calls (S (S k)) (showNext imageArray) s)
        with (calls (S k) (showNext imageArray) (exec (showNext imageArray) s)).
      rewrite Hcalls, Hs1. apply shown_shown.
    + split; [|exact Hnormal].
      unfold completion. now rewrite Hrun.
Qed.

End Cycle.

(** C6. For a gallery of length [n >= 1] and [0 <= i < n]: from the state
    [showLightbox i] leaves, [n] calls of [showNext] give back exactly that
    state; from any state [Open i], [k] successive calls all complete and
    land on [Open ((i+k) mod n)], one step per call, so that [n] calls land
    on [Open i] again. *)
Theorem next_full_cycle (imageArray : list Img) (s0 : State) (i : Z) :
  1 <= imageArray_length imageArray ->
  0 <= i < imageArray_length imageArray ->
  let s := exec (showLightbox imageArray i) s0 in
  view s = Open i /\
  calls (length imageArray) (showNext imageArray) s = s /\
  (forall (s1 : State) (k : nat),
     view s1 = Open i ->
     calls_normal k (showNext imageArray) s1 /\
     view (calls k (showNext imageArray) s1)
     = Open ((i + Z.of_nat k) mod imageArray_length imageArray)) /\
  (forall s1 : State,
     view s1 = Open i ->
     view (calls (length imageArray) (showNext imageArray) s1) = Open i).
Proof.
  intros Hn Hi.
  destruct (array_get_in_range imageArray i Hi) as [img Himg].
  cbn zeta. unfold exec at 1 2 3.
  rewrite (showLightbox_run imageArray i img s0 Himg). cbn [snd].
  assert (Hback : (i + Z.of_nat (length imageArray)) mod imageArray_length imageArray = i).
  { unfold imageArray_length in *.
    rewrite <- (Z.mul_1_l (Z.of_nat (length imageArray))) at 1.
    rewrite Z.mod_add by lia. apply Z.mod_small. lia. }
  assert (Hsteps : forall (s1 : State) (k : nat),
             view s1 = Open i ->
             calls_normal k (showNext imageArray) s1 /\
             view (calls k (showNext imageArray) s1)
             = Open ((i + Z.of_nat k) mod imageArray_length imageArray)).
  { intros s1 k Hview.
    apply view_Open in Hview as [Hopen Hcur].
    destruct k as [|k].
    + split; [exact I|]. cbn [calls]. change (Z.of_nat 0) with 0.
      rewrite Z.add_0_r, Z.mod_small by lia.
      unfold view. now rewrite Hopen, Hcur.
    + assert (Hi1 : 0 <= currentIndex s1 < imageArray_length imageArray)
        by (rewrite Hcur; exact Hi).
      destruct (calls_showNext imageArray k s1 Hi1) as [img' [_ [Hcalls Hnormal]]].
      split; [exact Hnormal|].
      rewrite Hcalls, view_shown, Hcur. reflexivity. }
  split; [apply view_shown|]. split; [|split].
  - destruct (length imageArray) as [|m] eqn:Elen.
    { unfold imageArray_length in Hn. rewrite Elen in Hn. simpl in Hn. lia. }
    destruct (calls_showNext imageArray m (shown i img s0)) as [img' [Himg' [Hcalls _]]];
      [exact Hi|].
    cbn [shown currentIndex] in Himg', Hcalls.
    rewrite Hback in Himg', Hcalls.
    rewrite Himg in Himg'. injection Himg' as <-.
    rewrite Hcalls. apply shown_shown.
  - exact Hsteps.
  - intros s1 Hview.
    rewrite (proj2 (Hsteps s1 (length imageArray) Hview)).
    now rewrite Hback.
Qed.

Lemma next_full_cycle_witness :
  let s := exec (showLightbox sample_images 1) sample_initial in
  calls 3 (showNext sample_images) s = s /\
  view (calls 5 (showNext sample_images) s) = Open 0.
Proof.
  assert (Hn : 1 <= imageArray_length sample_images)
    by (vm_compute; discriminate).
  assert (Hi : 0 <= 1 < imageArray_length sample_images)
    by (vm_compute; split; [discriminate | reflexivity]).
  pose proof (next_full_cycle sample_images sample_initial 1 Hn Hi)
    as [Hview [Hcycle [Hsteps _]]].
  split; [exact Hcycle|].
  exact (proj2 (Hsteps _ 5%nat Hview)).
Defined.

(** The scenario of the specification: five images, open at 0, four
    ArrowRight keys reach index 4, a fifth wraps to 0. *)
Example five_images_scenario :
  let imgs := [ mkImg "1.jpg" "one" None; mkImg "2.jpg" "two" None;
                mkImg "3.jpg" "three" None; mkImg "4.jpg" "four" None;
                mkImg "5.jpg" "five" None ] in
  let s := exec (showLightbox imgs 0) sample_initial in
  lightboxCaption_textContent (lightbox s) = "one"%string /\
  view (calls 4 (onDocumentKeydown imgs "ArrowRight") s) = Open 4 /\
  view (calls 5 (onDocumentKeydown imgs "ArrowRight") s) = Open 0.
Proof. repeat split. Qed.


(** * Further properties of the lightbox *)

(** ** Index arithmetic of [showNext] and [showPrev] *)

Lemma prev_of_next_index (n i : Z) :
  0 <= i < n -> ((i + 1) mod n - 1 + n) mod n = i.
Proof.
  intros Hi.
  replace ((i + 1) mod n - 1 + n) with ((i + 1) mod n + (n - 1)) by lia.
  rewrite Z.add_mod_idemp_l by lia.
  replace (i + 1 + (n - 1)) with (i + 1 * n) by lia.
  rewrite Z.mod_add by lia. apply Z.mod_small. exact Hi.
Qed.

Lemma next_of_prev_index (n i : Z) :
  0 <= i < n -> ((i - 1 + n) mod n + 1) mod n = i.
Proof.
  intros Hi.
  rewrite Z.add_mod_idemp_l by lia.
  replace (i - 1 + n + 1) with (i + 1 * n) by lia.
  rewrite Z.mod_add by lia. apply Z.mod_small. exact Hi.
Qed.

Lemma exec_showNext_shown (imageArray : list Img) (i : Z) (img : Img) (s0 : State) :
  0 <= i < imageArray_length imageArray ->
  exists img',
    array_get imageArray ((i + 1) mod imageArray_length imageArray) = Some img' /\
    exec (showNext imageArray) (shown i img s0)
    = shown ((i + 1) mod imageArray_length imageArray) img' s0.
Proof.
  intros Hi.
  destruct (showNext_valid imageArray (shown i img s0) Hi) as [img' [Himg' Hrun]].
  exists img'. split; [exact Himg'|].
  unfold exec at 1. rewrite Hrun. cbn [snd]. apply shown_shown.
Qed.

Lemma exec_showPrev_shown (imageArray : list Img) (i : Z) (img : Img) (s0 : State) :
  0 <= i < imageArray_length imageArray ->
  exists img',
    array_get imageArray ((i - 1 + imageArray_length imageArray)
                            mod imageArray_length imageArray) = Some img' /\
    exec (showPrev imageArray) (shown i img s0)
    = shown ((i - 1 + imageArray_length imageArray)
               mod imageArray_length imageArray) img' s0.
Proof.
  intros Hi.
  destruct (showPrev_valid imageArray (shown i img s0) Hi) as [img' [Himg' Hrun]].
  exists img'. split; [exact Himg'|].
  unfold exec at 1. rewrite Hrun. cbn [snd]. apply shown_shown.
Qed.

(** X1. [showPrev] undoes [showNext] and [showNext] undoes [showPrev]: from
    the state [showLightbox i] leaves for a valid [i], going forth and back
    (or back and forth) restores that state exactly, wraparound included. *)
Theorem next_previous_inverse (imageArray : list Img) (s0 : State) (i : Z) :
  0 <= i < imageArray_length imageArray ->
  let s := exec (showLightbox imageArray i) s0 in
  exec (showPrev imageArray) (exec (showNext imageArray) s) = s /\
  exec (showNext imageArray) (exec (showPrev imageArray) s) = s.
Proof.
  intros Hi.
  destruct (array_get_in_range imageArray i Hi) as [img Himg].
  assert (Hs : exec (showLightbox imageArray i) s0 = shown i img s0)
    by (unfold exec; now rewrite (showLightbox_run imageArray i img s0 Himg)).
  cbn zeta. rewrite Hs.
  split.
  - destruct (exec_showNext_shown imageArray i img s0 Hi) as [img1 [Himg1 ->]].
    destruct (exec_showPrev_shown imageArray _ img1 s0
                (array_get_Some_range _ _ _ Himg1)) as [img2 [Himg2 ->]].
    rewrite (prev_of_next_index _ i Hi) in Himg2 |- *.
    rewrite Himg in Himg2. now injection Himg2 as <-.
  - destruct (exec_showPrev_shown imageArray i img s0 Hi) as [img1 [Himg1 ->]].
    destruct (exec_showNext_shown imageArray _ img1 s0
                (array_get_Some_range _ _ _ Himg1)) as [img2 [Himg2 ->]].
    rewrite (next_of_prev_index _ i Hi) in Himg2 |- *.
    rewrite Himg in Himg2. now injection Himg2 as <-.
Qed.

Lemma next_previous_inverse_witness :
  let s := exec (showLightbox sample_images 2) sample_initial in
  exec (showPrev sample_images) (exec (showNext sample_images) s) = s /\
  exec (showNext sample_images) (exec (showPrev sample_images) s) = s.
Proof.
  apply (next_previous_inverse sample_images sample_initial 2).
  vm_compute. split; [discriminate | reflexivity].
Defined.

(** X2. [showLightbox] with an index outside the sequence throws a
    [TypeError] after having stored the index: [currentIndex] is the bad
    index, and the modal, the page scroll lock and the focus are left as
    they were. *)
Theorem showLightbox_out_of_range (imageArray : list Img) (s : State) (index : Z) :
  index < 0 \/ imageArray_length imageArray <= index ->
  completion (showLightbox imageArray index) s = Throw "TypeError" /\
  currentIndex (exec (showLightbox imageArray index) s) = index /\
  lightbox (exec (showLightbox imageArray index) s) = lightbox s /\
  body_style_overflow (exec (showLightbox imageArray index) s) = body_style_overflow s /\
  activeElement (exec (showLightbox imageArray index) s) = activeElement s.
Proof.
  intros Hout.
  assert (Hnone : array_get imageArray index = None).
  { destruct (array_get imageArray index) as [img|] eqn:E; [|reflexivity].
    apply array_get_Some_range in E. unfold imageArray_length in Hout. lia. }
  unfold completion, exec, showLightbox, bind, set_currentIndex, modify, throw.
  rewrite Hnone. repeat split.
Qed.

Lemma showLightbox_out_of_range_witness :
  completion (showLightbox sample_images 3) sample_initial = Throw "TypeError" /\
  currentIndex (exec (showLightbox sample_images 3) sample_initial) = 3 /\
  isOpen (exec (showLightbox sample_images (-1)) sample_initial) = false.
Proof.
  assert (H3 : 3 < 0 \/ imageArray_length sample_images <= 3)
    by (right; vm_compute; discriminate).
  assert (Hneg : -1 < 0 \/ imageArray_length sample_images <= -1)
    by (left; reflexivity).
  pose proof (showLightbox_out_of_range sample_images sample_initial 3 H3)
    as [Hthrow [Hidx _]].
  pose proof (showLightbox_out_of_range sample_images sample_initial (-1) Hneg)
    as [_ [_ [Hlb _]]].
  split; [exact Hthrow|]. split; [exact Hidx|].
  unfold isOpen. rewrite Hlb. reflexivity.
Defined.

(** X3. In every reachable state, wherever the browser has moved the
    focus meanwhile, the attributes agree with one another: the modal
    keeps its dialog role and label; it is open exactly when
    [aria-hidden] is false and closed exactly when it is true; an open
    viewer shows the entry at [currentIndex] and has the page scroll
    locked. *)
Theorem reachable_coherent (p : Page) (s : State) :
  reachable p s ->
  attr_role (lightbox s) = "dialog"%string /\
  attr_aria_modal (lightbox s) = "true"%string /\
  attr_aria_label (lightbox s) = "Image gallery lightbox"%string /\
  (isOpen s = true <-> attr_aria_hidden (lightbox s) = "false"%string) /\
  (isOpen s = false <-> attr_aria_hidden (lightbox s) = "true"%string) /\
  (isOpen s = true ->
   body_style_overflow s = "hidden"%string /\
   exists img,
     array_get (imageArray_of p) (currentIndex s) = Some img /\
     lightboxImage_src (lightbox s) = img_src img /\
     lightboxImage_alt (lightbox s) = img_alt img /\
     lightboxCaption_textContent (lightbox s) = entry_caption img).
Proof.
  intros Hreach.
  destruct (reachable_invariant p s Hreach)
    as [_ [[img [Himg [Hs Hov]]] | [Hcl [Hr [Hm [Hl [Hh _]]]]]]].
  - assert (Hopen : isOpen s = true) by (unfold isOpen; rewrite Hs; reflexivity).
    assert (Hh : attr_aria_hidden (lightbox s) = "false"%string)
      by (rewrite Hs; reflexivity).
    split; [rewrite Hs; reflexivity|].
    split; [rewrite Hs; reflexivity|].
    split; [rewrite Hs; reflexivity|].
    split; [now split|].
    split; [split; intros H; [rewrite Hopen in H | rewrite Hh in H]; discriminate|].
    intros _.
    split; [exact Hov|].
    exists img. split; [exact Himg|].
    repeat split; rewrite Hs; reflexivity.
  - assert (Hclosed : isOpen s = false) by (unfold isOpen; now rewrite Hcl).
    rewrite Hclosed, Hr, Hm, Hl, Hh.
    repeat split; try reflexivity; try discriminate.
Qed.

Lemma reachable_coherent_witness :
  let s := exec (focus El_nextBtn)
             (exec (showLightbox (imageArray_of sample_page) 1) sample_initial) in
  activeElement s = El_nextBtn /\
  (isOpen s = true <-> attr_aria_hidden (lightbox s) = "false"%string) /\
  (isOpen s = true -> body_style_overflow s = "hidden"%string).
Proof.
  assert (Hreach : reachable sample_page
                     (exec (focus El_nextBtn)
                        (exec (showLightbox (imageArray_of sample_page) 1)
                           sample_initial))).
  { apply reachable_focus.
    apply (reachable_event sample_page _
             (mkListener (El_galleryImage 1) click (H_imageClick 1)) ""%string).
    - apply reachable_init. reflexivity.
    - vm_compute. tauto. }
  destruct (reachable_coherent sample_page _ Hreach)
    as [_ [_ [_ [Hiff [_ Hopen]]]]].
  split; [reflexivity|]. split; [exact Hiff|].
  intros H. exact (proj1 (Hopen H)).
Defined.

(** X4. No registered handler ever throws: in every reachable state, an
    event on any listener [initGalleryLightbox] added completes normally,
    whatever the key. *)
Theorem handlers_never_throw (p : Page) (s : State) (l : Listener) (key : string) :
  reachable p s ->
  In l (listeners_added p) ->
  completion (run_handler (imageArray_of p) (listener_handler l) key) s = Normal tt.
Proof.
  intros Hreach Hin.
  pose proof (listeners_added_valid p l Hin) as Hvalid.
  pose proof (reachable_invariant p s Hreach) as [Hi _].
  assert (Hshow : forall index s',
             0 <= index < imageArray_length (imageArray_of p) ->
             completion (showLightbox (imageArray_of p) index) s' = Normal tt).
  { intros index s' Hidx.
    destruct (array_get_in_range (imageArray_of p) index Hidx) as [img Himg].
    unfold completion. now rewrite (showLightbox_run _ _ _ _ Himg). }
  assert (Hnext : completion (showNext (imageArray_of p)) s = Normal tt).
  { destruct (showNext_valid (imageArray_of p) s Hi) as [img [_ Hrun]].
    unfold completion. now rewrite Hrun. }
  assert (Hprev : completion (showPrev (imageArray_of p)) s = Normal tt).
  { destruct (showPrev_valid (imageArray_of p) s Hi) as [img [_ Hrun]].
    unfold completion. now rewrite Hrun. }
  destruct (listener_handler l) as [index | index | | | |]; cbn [run_handler].
  - now apply Hshow.
  - unfold onImageKeydown.
    destruct (String.eqb key "Enter" || String.eqb key " ")%bool;
      [now apply Hshow | reflexivity].
  - reflexivity.
  - exact Hprev.
  - exact Hnext.
  - unfold onDocumentKeydown, completion, bind, gets.
    destruct (isOpen s); [|reflexivity].
    destruct (String.eqb key "Escape"); [reflexivity|].
    destruct (String.eqb key "ArrowLeft"); [exact Hprev|].
    destruct (String.eqb key "ArrowRight"); [exact Hnext|].
    reflexivity.
Qed.

Lemma handlers_never_throw_witness :
  completion (run_handler (imageArray_of sample_page) H_showPrev "") sample_initial
  = Normal tt.
Proof.
  apply (handlers_never_throw sample_page sample_initial
           (mkListener El_prevBtn click H_showPrev) ""%string).
  - apply reachable_init. reflexivity.
  - vm_compute. tauto.
Defined.

(** ** What [initGalleryLightbox] leaves on the page *)

Lemma galleryImages_forEach_result (imgs : list GalleryImage) :
  forall (k : nat) (ls : list Listener),
    galleryImages_forEach k imgs ls =
    (map (fun g => {| image := image g;
                      style_cursor := "pointer";
                      attr_tabindex := Some "0"%string;
                      image_attr_role := Some "button"%string |}) imgs,
     (ls ++ flat_map (fun index =>
                        [ mkListener (El_galleryImage index) click
                            (H_imageClick (Z.of_nat index));
                          mkListener (El_galleryImage index) keydown
                            (H_imageKeydown (Z.of_nat index)) ])
              (seq k (length imgs)))%list).
Proof.
  induction imgs as [|g rest IH]; intros k ls.
  - simpl. now rewrite app_nil_r.
  - cbn [galleryImages_forEach]. rewrite IH.
    cbn [map length seq flat_map]. now rewrite <- app_assoc.
Qed.

(** X5. On a page with [n >= 1] gallery images, [initGalleryLightbox]
    makes every image focusable and button-like without touching its
    data or the order, and adds exactly [2n + 5] listeners after the
    existing ones: a click and a keydown listener per image, carrying the
    image's own position, then those of the four controls and the
    page-wide key listener. *)
Theorem init_registers (p : Page) :
  galleryImages p <> [] ->
  let p' := fst (initGalleryLightbox p) in
  galleryImages p'
  = map (fun g => {| image := image g;
                     style_cursor := "pointer";
                     attr_tabindex := Some "0"%string;
                     image_attr_role := Some "button"%string |}) (galleryImages p) /\
  imageArray_of p' = imageArray_of p /\
  listeners p'
  = (listeners p
     ++ flat_map (fun index =>
                    [ mkListener (El_galleryImage index) click
                        (H_imageClick (Z.of_nat index));
                      mkListener (El_galleryImage index) keydown
                        (H_imageKeydown (Z.of_nat index)) ])
          (seq 0 (length (galleryImages p)))
     ++ control_listeners)%list /\
  length (listeners_added p) = (2 * length (galleryImages p) + 5)%nat.
Proof.
  intros Hne. cbn zeta.
  assert (Hinit : fst (initGalleryLightbox p)
                  = {| galleryImages := fst (galleryImages_forEach 0 (galleryImages p) (listeners p));
                       body_appended := (body_appended p ++ [new_lightbox])%list;
                       listeners := (snd (galleryImages_forEach 0 (galleryImages p) (listeners p))
                                     ++ control_listeners)%list;
                       page_body_style_overflow := page_body_style_overflow p;
                       page_activeElement := page_activeElement p |}).
  { unfold initGalleryLightbox.
    destruct (galleryImages p) as [|g gs] eqn:E; [contradiction|].
    cbn [length Nat.eqb].
    destruct (galleryImages_forEach 0 (g :: gs) (listeners p)). reflexivity. }
  unfold listeners_added. rewrite Hinit. cbn [galleryImages listeners].
  rewrite galleryImages_forEach_result. cbn [fst snd].
  split; [reflexivity|]. split.
  - unfold imageArray_of. cbn [galleryImages]. rewrite map_map. reflexivity.
  - split; [now rewrite <- app_assoc|].
    rewrite <- app_assoc, skipn_app, skipn_all, Nat.sub_diag.
    cbn [skipn app]. rewrite length_app.
    assert (Hflat : forall k m,
               length (flat_map (fun index =>
                          [ mkListener (El_galleryImage index) click
                              (H_imageClick (Z.of_nat index));
                            mkListener (El_galleryImage index) keydown
                              (H_imageKeydown (Z.of_nat index)) ])
                        (seq k m)) = (2 * m)%nat).
    { intros k m. revert k. induction m as [|m IHm]; intros k; [reflexivity|].
      cbn [seq flat_map]. rewrite length_app, IHm. simpl. lia. }
    rewrite Hflat. reflexivity.
Qed.

Lemma init_registers_witness :
  length (listeners_added sample_page) = 11%nat.
Proof.
  apply (init_registers sample_page). discriminate.
Defined.

(** ** Keyboard activation of a gallery image *)

(** X6. Enter or Space on a focused gallery image has exactly the effect
    of a click on it: the image's own handler opens the viewer, and the
    page-wide handler, which sees the same event afterwards while the
    viewer is already open, does nothing more. Any other key leaves the
    image's handler without effect. *)
Theorem keyboard_activation_is_click (imageArray : list Img) (s : State)
    (index : Z) (key : string) :
  0 <= index < imageArray_length imageArray ->
  (key = "Enter"%string \/ key = " "%string ->
   onImageKeydown imageArray index key s = showLightbox imageArray index s /\
   exec (onDocumentKeydown imageArray key) (exec (onImageKeydown imageArray index key) s)
   = exec (showLightbox imageArray index) s) /\
  (key <> "Enter"%string -> key <> " "%string ->
   onImageKeydown imageArray index key s = (Normal tt, s)).
Proof.
  intros Hi. split.
  - intros Hkey.
    assert (Himg : onImageKeydown imageArray index key s
                   = showLightbox imageArray index s)
      by (destruct Hkey as [-> | ->]; reflexivity).
    split; [exact Himg|].
    unfold exec at 2. rewrite Himg.
    destruct (array_get_in_range imageArray index Hi) as [img Hget].
    unfold exec. rewrite (showLightbox_run imageArray index img s Hget). cbn [snd].
    unfold onDocumentKeydown, bind, gets.
    assert (Hopen : isOpen (shown index img s) = true)
      by (unfold isOpen; simpl; apply classList_contains_add).
    rewrite Hopen.
    destruct Hkey as [-> | ->]; reflexivity.
  - intros HE HS. unfold onImageKeydown.
    destruct (String.eqb_spec key "Enter") as [E|_]; [contradiction|].
    destruct (String.eqb_spec key " ") as [E|_]; [contradiction|].
    reflexivity.
Qed.

Lemma keyboard_activation_is_click_witness :
  exec (onDocumentKeydown sample_images " ")
    (exec (onImageKeydown sample_images 1 " ") sample_initial)
  = exec (showLightbox sample_images 1) sample_initial.
Proof.
  assert (Hi : 0 <= 1 < imageArray_length sample_images)
    by (vm_compute; split; [discriminate | reflexivity]).
  pose proof (keyboard_activation_is_click sample_images sample_initial 1 " " Hi)
    as [H _].
  exact (proj2 (H (or_intror eq_refl))).
Defined.

(** ** Opening does not depend on the history *)

(** X7. The state [showLightbox i] leaves does not depend on what happened
    before: from any two reachable states of a page, opening the same
    valid index gives the same state, so no earlier image, class or focus
    leaks into the view. *)
Theorem open_history_independent (p : Page) (s1 s2 : State) (i : Z) :
  reachable p s1 ->
  reachable p s2 ->
  0 <= i < imageArray_length (imageArray_of p) ->
  showLightbox (imageArray_of p) i s1 = showLightbox (imageArray_of p) i s2.
Proof.
  intros H1 H2 Hi.
  destruct (array_get_in_range (imageArray_of p) i Hi) as [img Himg].
  rewrite !(showLightbox_run _ _ _ _ Himg).
  rewrite (shown_from_invariant p s1 s1 i img (reachable_invariant p s1 H1) eq_refl).
  rewrite (shown_from_invariant p s2 s2 i img (reachable_invariant p s2 H2) eq_refl).
  reflexivity.
Qed.

Lemma open_history_independent_witness :
  showLightbox (imageArray_of sample_page) 0 sample_initial
  = showLightbox (imageArray_of sample_page) 0
      (exec (showLightbox (imageArray_of sample_page) 2) sample_initial).
Proof.
  apply (open_history_independent sample_page).
  - apply reachable_init. reflexivity.
  - apply (reachable_event sample_page _
             (mkListener (El_galleryImage 2) click (H_imageClick 2)) ""%string).
    + apply reachable_init. reflexivity.
    + vm_compute. tauto.
  - vm_compute. split; [discriminate | reflexivity].
Defined.

(** ** The controls are not guarded by the open state *)

(** X8. [closeLightbox] keeps [currentIndex], and [showNext] and [showPrev]
    do not test whether the viewer is open: after open at [i] and close, a
    call of [showNext] reopens the viewer on [(i+1) mod n] and [showPrev]
    on [(i-1+n) mod n], while the same closed state ignores the arrow
    keys. *)
Theorem navigation_reopens_closed_viewer (imageArray : list Img) (s0 : State) (i : Z) :
  0 <= i < imageArray_length imageArray ->
  let closed := exec closeLightbox (exec (showLightbox imageArray i) s0) in
  view closed = Closed /\
  currentIndex closed = i /\
  view (exec (showNext imageArray) closed)
  = Open ((i + 1) mod imageArray_length imageArray) /\
  view (exec (showPrev imageArray) closed)
  = Open ((i - 1 + imageArray_length imageArray) mod imageArray_length imageArray) /\
  exec (onDocumentKeydown imageArray "ArrowRight") closed = closed /\
  exec (onDocumentKeydown imageArray "ArrowLeft") closed = closed.
Proof.
  intros Hi.
  destruct (array_get_in_range imageArray i Hi) as [img Himg].
  assert (Hs : exec (showLightbox imageArray i) s0 = shown i img s0)
    by (unfold exec; now rewrite (showLightbox_run imageArray i img s0 Himg)).
  cbn zeta. rewrite Hs.
  set (closed := exec closeLightbox (shown i img s0)).
  assert (Hcur : currentIndex closed = i) by reflexivity.
  assert (Hclosed : isOpen closed = false)
    by (unfold closed, isOpen; simpl; apply classList_contains_remove).
  assert (Hi' : 0 <= currentIndex closed < imageArray_length imageArray)
    by (rewrite Hcur; exact Hi).
  destruct (showNext_valid imageArray closed Hi') as [imgN [_ HN]].
  destruct (showPrev_valid imageArray closed Hi') as [imgP [_ HP]].
  split; [unfold view; now rewrite Hclosed|].
  split; [exact Hcur|].
  split; [unfold exec; rewrite HN; cbn [snd]; rewrite view_shown, Hcur; reflexivity|].
  split; [unfold exec; rewrite HP; cbn [snd]; rewrite view_shown, Hcur; reflexivity|].
  unfold exec, onDocumentKeydown, bind, gets. rewrite Hclosed. now split.
Qed.

Lemma navigation_reopens_closed_viewer_witness :
  view (exec (showNext sample_images)
          (exec closeLightbox (exec (showLightbox sample_images 2) sample_initial)))
  = Open 0.
Proof.
  assert (Hi : 0 <= 2 < imageArray_length sample_images)
    by (vm_compute; split; [discriminate | reflexivity]).
  pose proof (navigation_reopens_closed_viewer sample_images sample_initial 2 Hi)
    as [_ [_ [HN _]]].
  exact HN.
Defined.


(** * Properties of the contact form validation *)

(** ** The derivative test decides the language of a pattern *)

Lemma Matches_seq_inv (r1 r2 : RegExp) (s : JsString) :
  Matches (Re_seq r1 r2) s <->
  exists s1 s2, s = (s1 ++ s2)%list /\ Matches r1 s1 /\ Matches r2 s2.
Proof.
  split.
  - intros H. inversion H; subst. eauto.
  - intros [s1 [s2 [-> [H1 H2]]]]. now constructor.
Qed.

Lemma Matches_alt_inv (r1 r2 : RegExp) (s : JsString) :
  Matches (Re_alt r1 r2) s <-> Matches r1 s \/ Matches r2 s.
Proof.
  split.
  - intros H. inversion H; subst; auto.
  - intros [H | H]; [now apply M_alt_l | now apply M_alt_r].
Qed.

Lemma Matches_class_inv (p : N -> bool) (s : JsString) :
  Matches (Re_class p) s <-> exists c, s = [c] /\ p c = true.
Proof.
  split.
  - intros H. inversion H; subst. eauto.
  - intros [c [-> Hc]]. now constructor.
Qed.

Lemma Matches_fail_inv (s : JsString) : ~ Matches Re_fail s.
Proof. intros H. inversion H. Qed.

Lemma Matches_empty_inv (s : JsString) : Matches Re_empty s <-> s = [].
Proof.
  split.
  - intros H. now inversion H.
  - intros ->. constructor.
Qed.

Lemma nullable_Matches (r : RegExp) : nullable r = true <-> Matches r [].
Proof.
  induction r as [| | p | r1 IH1 r2 IH2 | r1 IH1 r2 IH2 | r IH]; simpl.
  - split; [discriminate | intros H; now apply Matches_fail_inv in H].
  - split; [intros _; constructor | reflexivity].
  - split; [discriminate|].
    intros H. apply Matches_class_inv in H as [c [E _]]. discriminate E.
  - rewrite andb_true_iff, IH1, IH2, Matches_seq_inv. split.
    + intros [H1 H2]. now exists [], [].
    + intros [s1 [s2 [E [H1 H2]]]].
      symmetry in E. apply app_eq_nil in E as [-> ->]. now split.
  - now rewrite orb_true_iff, IH1, IH2, Matches_alt_inv.
  - split; [intros _; constructor | reflexivity].
Qed.

(** A non-empty word of [r*] starts with a non-empty word of [r]. *)
Lemma Matches_star_cons_inv (r : RegExp) (c : N) (s : JsString) :
  Matches (Re_star r) (c :: s) ->
  exists s1 s2,
    s = (s1 ++ s2)%list /\ Matches r (c :: s1) /\ Matches (Re_star r) s2.
Proof.
  intros H.
  remember (Re_star r) as r' eqn:Er.
  remember (c :: s) as w eqn:Ew.
  revert c s Ew.
  induction H as [| | | | | r0 | r0 s1 s2 H1 _ H2 IH2]; try discriminate.
  intros c s Ew. injection Er as ->.
  destruct s1 as [|c1 s1].
  - simpl in Ew. now apply IH2.
  - simpl in Ew. injection Ew as Ec Es. subst c1 s.
    now exists s1, s2.
Qed.

Lemma derive_Matches (r : RegExp) :
  forall (c : N) (s : JsString), Matches (derive c r) s <-> Matches r (c :: s).
Proof.
  induction r as [| | p | r1 IH1 r2 IH2 | r1 IH1 r2 IH2 | r IH]; intros c s; simpl.
  - split; intros H; now apply Matches_fail_inv in H.
  - split; intros H; [now apply Matches_fail_inv in H|].
    apply Matches_empty_inv in H. discriminate H.
  - rewrite Matches_class_inv. destruct (p c) eqn:Ep.
    + rewrite Matches_empty_inv. split.
      * intros ->. now exists c.
      * intros [c' [E _]]. now injection E as _ ->.
    + split; [intros H; now apply Matches_fail_inv in H|].
      intros [c' [E Hc']]. injection E as -> _. congruence.
  - assert (Hseq : Matches (Re_seq (derive c r1) r2) s \/
                   (Matches r1 [] /\ Matches (derive c r2) s)
                   <-> Matches (Re_seq r1 r2) (c :: s)).
    { rewrite !Matches_seq_inv. split.
      - intros [[s1 [s2 [-> [H1 H2]]]] | [H1 H2]].
        + exists (c :: s1), s2. split; [reflexivity|].
          split; [now apply IH1 | exact H2].
        + exists [], (c :: s). split; [reflexivity|].
          split; [exact H1 | now apply IH2].
      - intros [s1 [s2 [E [H1 H2]]]]. destruct s1 as [|c1 s1].
        + simpl in E. subst s2. right. split; [exact H1 | now apply IH2].
        + simpl in E. injection E as -> ->. left.
          exists s1, s2. split; [reflexivity|].
          split; [now apply IH1 | exact H2]. }
    rewrite <- Hseq.
    destruct (nullable r1) eqn:En.
    + rewrite Matches_alt_inv. rewrite <- nullable_Matches, En. tauto.
    + rewrite <- nullable_Matches, En. split; [now left|].
      intros [H | [H _]]; [exact H | discriminate H].
  - now rewrite !Matches_alt_inv, IH1, IH2.
  - rewrite Matches_seq_inv. split.
    + intros [s1 [s2 [-> [H1 H2]]]]. apply IH in H1.
      change (c :: s1 ++ s2)%list with ((c :: s1) ++ s2)%list. now constructor.
    + intros H. apply Matches_star_cons_inv in H as [s1 [s2 [-> [H1 H2]]]].
      exists s1, s2. split; [reflexivity|]. split; [now apply IH | exact H2].
Qed.

Lemma regexp_test_Matches (s : JsString) :
  forall r : RegExp, regexp_test r s = true <-> Matches r s.
Proof.
  induction s as [|c s IH]; intros r; simpl.
  - apply nullable_Matches.
  - rewrite IH. apply derive_Matches.
Qed.

(** Words of a repeated character class. *)
Lemma Matches_star_class (p : N -> bool) (s : JsString) :
  Matches (Re_star (Re_class p)) s <-> forallb p s = true.
Proof.
  split.
  - intros H. remember (Re_star (Re_class p)) as r eqn:Er.
    induction H as [| | | | | r0 | r0 s1 s2 H1 _ H2 IH2]; try discriminate.
    + reflexivity.
    + injection Er as ->. apply Matches_class_inv in H1 as [c [-> Hc]]. simpl.
      rewrite andb_true_iff. split; [assumption | now apply IH2].
  - induction s as [|c s IH]; simpl; intros H.
    + constructor.
    + apply andb_true_iff in H as [Hc Hs].
      change (c :: s) with ([c] ++ s)%list.
      constructor; [now constructor | now apply IH].
Qed.

Lemma Matches_plus_class (p : N -> bool) (s : JsString) :
  Matches (Re_plus (Re_class p)) s <-> s <> [] /\ forallb p s = true.
Proof.
  unfold Re_plus. rewrite Matches_seq_inv. split.
  - intros [s1 [s2 [-> [H1 H2]]]].
    apply Matches_class_inv in H1 as [c [-> Hc]].
    apply Matches_star_class in H2.
    split; [discriminate|]. simpl. now rewrite Hc, H2.
  - intros [Hne Hall]. destruct s as [|c s]; [contradiction|].
    simpl in Hall. apply andb_true_iff in Hall as [Hc Hs].
    exists [c], s. split; [reflexivity|].
    split; [now constructor | now apply Matches_star_class].
Qed.

Lemma Matches_char_inv (k : N) (s : JsString) :
  Matches (Re_class (N.eqb k)) s <-> s = [k].
Proof.
  rewrite Matches_class_inv. split.
  - intros [c [-> Hc]]. apply N.eqb_eq in Hc. now subst.
  - intros ->. exists k. split; [reflexivity | apply N.eqb_refl].
Qed.

(** ** The two patterns *)

(** The language of the email pattern. *)
Lemma isValidEmail_parts (s : JsString) :
  isValidEmail s = true <->
  exists a b c,
    s = (a ++ 64%N :: b ++ 46%N :: c)%list /\
    a <> [] /\ b <> [] /\ c <> [] /\
    forallb VALIDATION.not_space_or_at a = true /\
    forallb VALIDATION.not_space_or_at b = true /\
    forallb VALIDATION.not_space_or_at c = true.
Proof.
  unfold isValidEmail, VALIDATION.EMAIL_PATTERN.
  rewrite regexp_test_Matches. split.
  - intros H.
    apply Matches_seq_inv in H as [a [t1 [-> [Ha H]]]].
    apply Matches_seq_inv in H as [at_ [t2 [-> [Hat H]]]].
    apply Matches_seq_inv in H as [b [t3 [-> [Hb H]]]].
    apply Matches_seq_inv in H as [dot [c [-> [Hdot Hc]]]].
    apply Matches_char_inv in Hat, Hdot. subst at_ dot.
    apply Matches_plus_class in Ha as [Ha1 Ha2].
    apply Matches_plus_class in Hb as [Hb1 Hb2].
    apply Matches_plus_class in Hc as [Hc1 Hc2].
    exists a, b, c. simpl. repeat split; assumption.
  - intros [a [b [c [-> [Ha1 [Hb1 [Hc1 [Ha2 [Hb2 Hc2]]]]]]]]].
    apply Matches_seq_inv. exists a, (64%N :: b ++ 46%N :: c)%list.
    split; [reflexivity|]. split; [now apply Matches_plus_class|].
    apply Matches_seq_inv. exists [64%N], (b ++ 46%N :: c)%list.
    split; [reflexivity|]. split; [now apply Matches_char_inv|].
    apply Matches_seq_inv. exists b, (46%N :: c)%list.
    split; [reflexivity|]. split; [now apply Matches_plus_class|].
    apply Matches_seq_inv. exists [46%N], c.
    split; [reflexivity|]. split; [now apply Matches_char_inv|].
    now apply Matches_plus_class.
Qed.

Example email_accepted : isValidEmail (units "guest@example.com") = true.
Proof. reflexivity. Qed.

Example email_dotted_parts_accepted : isValidEmail (units "a.b@.c.d.") = true.
Proof. reflexivity. Qed.

Example email_without_dot_rejected : isValidEmail (units "guest@example") = false.
Proof. reflexivity. Qed.

Example email_with_space_rejected : isValidEmail (units "gue st@example.com") = false.
Proof. reflexivity. Qed.

Example email_with_two_ats_rejected : isValidEmail (units "a@b@example.com") = false.
Proof. reflexivity. Qed.

Lemma not_space_or_at_count (s : JsString) :
  forallb VALIDATION.not_space_or_at s = true ->
  count_occ N.eq_dec s 64%N = 0%nat /\ forallb (fun c => negb (is_whitespace c)) s = true.
Proof.
  induction s as [|c s IH]; simpl; [now split|].
  intros H. apply andb_true_iff in H as [Hc Hs].
  destruct (IH Hs) as [IHc IHw].
  unfold VALIDATION.not_space_or_at in Hc.
  apply negb_true_iff, orb_false_iff in Hc as [Hw Hat].
  apply N.eqb_neq in Hat.
  split.
  - destruct (N.eq_dec c 64) as [E|_]; [contradiction | exact IHc].
  - now rewrite Hw, IHw.
Qed.

(** X9. [isValidEmail] accepts exactly the strings [a@b.c] where [a], [b]
    and [c] are non-empty and contain neither white space nor [@] (a dot
    may occur inside any of the three parts). An accepted address
    therefore contains exactly one [@], no white space at all, and at
    least five characters. *)
Theorem isValidEmail_spec (s : JsString) :
  (isValidEmail s = true <->
   exists a b c,
     s = (a ++ 64%N :: b ++ 46%N :: c)%list /\
     a <> [] /\ b <> [] /\ c <> [] /\
     forallb VALIDATION.not_space_or_at a = true /\
     forallb VALIDATION.not_space_or_at b = true /\
     forallb VALIDATION.not_space_or_at c = true) /\
  (isValidEmail s = true ->
   count_occ N.eq_dec s 64%N = 1%nat /\
   forallb (fun c => negb (is_whitespace c)) s = true /\
   (5 <= length s)%nat).
Proof.
  split; [apply isValidEmail_parts|].
  intros H. apply isValidEmail_parts in H
    as [a [b [c [-> [Ha1 [Hb1 [Hc1 [Ha2 [Hb2 Hc2]]]]]]]]].
  destruct (not_space_or_at_count a Ha2) as [Ca Wa].
  destruct (not_space_or_at_count b Hb2) as [Cb Wb].
  destruct (not_space_or_at_count c Hc2) as [Cc Wc].
  split; [|split].
  - rewrite count_occ_app. cbn [count_occ].
    destruct (N.eq_dec 64 64) as [_|Hne]; [|contradiction].
    rewrite count_occ_app. cbn [count_occ].
    destruct (N.eq_dec 46 64) as [Hbad|_]; [discriminate Hbad|].
    rewrite Ca, Cb, Cc. reflexivity.
  - rewrite forallb_app. cbn [forallb]. rewrite forallb_app. cbn [forallb].
    rewrite Wa, Wb, Wc. reflexivity.
  - rewrite length_app. cbn [length]. rewrite length_app. cbn [length].
    destruct a; [contradiction|]. destruct b; [contradiction|].
    destruct c; [contradiction|]. cbn [length]. lia.
Qed.

Lemma isValidEmail_spec_witness :
  count_occ N.eq_dec (units "guest@example.com") 64%N = 1%nat.
Proof.
  apply (proj2 (isValidEmail_spec (units "guest@example.com"))). reflexivity.
Defined.

(** X10. [isValidPhone] accepts exactly an optional leading [+] followed by
    one or more characters among digits, white space, [-], [(] and [)]. *)
Theorem isValidPhone_spec (s : JsString) :
  isValidPhone s = true <->
  exists t,
    (s = t \/ s = 43%N :: t) /\
    t <> [] /\
    forallb VALIDATION.phone_character t = true.
Proof.
  unfold isValidPhone, VALIDATION.PHONE_PATTERN.
  rewrite regexp_test_Matches, Matches_seq_inv. split.
  - intros [plus [t [-> [Hplus Ht]]]].
    apply Matches_plus_class in Ht as [Ht1 Ht2].
    exists t. split; [|now split].
    apply Matches_alt_inv in Hplus as [Hplus | Hplus].
    + apply Matches_char_inv in Hplus. subst plus. now right.
    + apply Matches_empty_inv in Hplus. subst plus. now left.
  - intros [t [[-> | ->] [Ht1 Ht2]]].
    + exists [], t. split; [reflexivity|]. split.
      * apply M_alt_r. constructor.
      * now apply Matches_plus_class.
    + exists [43%N], t. split; [reflexivity|]. split.
      * apply M_alt_l. now apply Matches_char_inv.
      * now apply Matches_plus_class.
Qed.

Example phone_accepted : isValidPhone (units "+234 (0) 803-123-4567") = true.
Proof. reflexivity. Qed.

Example phone_plus_alone_rejected : isValidPhone (units "+") = false.
Proof. reflexivity. Qed.

Example phone_inner_plus_rejected : isValidPhone (units "0803+123") = false.
Proof. reflexivity. Qed.

Example phone_letters_rejected : isValidPhone (units "0803 CALL") = false.
Proof. reflexivity. Qed.

(** ** Elements looked up by id *)

Lemma getElementById_set_same (id text : string) (doc : Elements) :
  getElementById id doc <> None ->
  getElementById id (set_textContent id text doc) = Some text.
Proof.
  induction doc as [|[id' text'] doc IH]; simpl; [contradiction|].
  destruct (String.eqb id id') eqn:E; simpl; rewrite E; [reflexivity | exact IH].
Qed.

Lemma getElementById_set_other (id id0 text : string) (doc : Elements) :
  id0 <> id ->
  getElementById id0 (set_textContent id text doc) = getElementById id0 doc.
Proof.
  intros Hne.
  induction doc as [|[id' text'] doc IH]; simpl; [reflexivity|].
  destruct (String.eqb id id') eqn:E; simpl.
  - apply String.eqb_eq in E. subst id'.
    destruct (String.eqb id0 id) eqn:E0; [|reflexivity].
    apply String.eqb_eq in E0. contradiction.
  - destruct (String.eqb id0 id'); [reflexivity | exact IH].
Qed.

Lemma set_textContent_missing (id text : string) (doc : Elements) :
  getElementById id doc = None -> set_textContent id text doc = doc.
Proof.
  induction doc as [|[id' text'] doc IH]; simpl; [reflexivity|].
  destruct (String.eqb id id'); [discriminate|].
  intros H. now rewrite IH.
Qed.

(** Writing a text never creates or removes an element. *)
Lemma getElementById_set_exists (id id0 text : string) (doc : Elements) :
  getElementById id0 (set_textContent id text doc) = None <->
  getElementById id0 doc = None.
Proof.
  destruct (String.eqb_spec id0 id) as [->|Hne].
  - destruct (getElementById id doc) as [t|] eqn:E.
    + rewrite getElementById_set_same by (rewrite E; discriminate).
      split; discriminate.
    + now rewrite set_textContent_missing, E.
  - now rewrite getElementById_set_other.
Qed.

Lemma set_textContent_twice (id text1 text2 : string) (doc : Elements) :
  set_textContent id text2 (set_textContent id text1 doc)
  = set_textContent id text2 doc.
Proof.
  induction doc as [|[id' text'] doc IH]; simpl; [reflexivity|].
  destruct (String.eqb id id') eqn:E; simpl; rewrite E; [reflexivity|].
  now rewrite IH.
Qed.

(** ** [validateField] *)

Lemma isValidEmail_empty : isValidEmail [] = false.
Proof. reflexivity. Qed.

Lemma isValidPhone_empty : isValidPhone [] = false.
Proof. reflexivity. Qed.

(** X11. The verdict of [validateField] by field name, on the trimmed
    value [v]: a name needs at least 2 characters, an email and a phone
    number must match their pattern, a message needs between 10 and 1000
    characters. For these four names the [required] attribute never
    changes the verdict (a blank value already fails the rule); for any
    other name the field is valid unless it is required and blank. *)
Theorem validateField_verdict (field : Field) (doc : Elements) :
  let v := trim (field_value field) in
  fst (validateField field doc) =
  if String.eqb (field_name field) "name" then (2 <=? length v)%nat
  else if String.eqb (field_name field) "email" then isValidEmail v
  else if String.eqb (field_name field) "phone" then isValidPhone v
  else if String.eqb (field_name field) "message"
       then ((10 <=? length v)%nat && (length v <=? 1000)%nat)%bool
  else negb (field_required field && match v with [] => true | _ => false end).
Proof.
  cbn zeta. unfold validateField, field_verdict.
  set (v := trim (field_value field)).
  unfold VALIDATION.NAME_MIN_LENGTH, VALIDATION.MESSAGE_MIN_LENGTH,
    VALIDATION.MESSAGE_MAX_LENGTH.
  destruct (String.eqb (field_name field) "name").
  { destruct (Nat.ltb_spec (length v) 2) as [Hlt|Hge].
    - destruct (field_required field && _)%bool; cbn [fst];
        symmetry; apply Nat.leb_gt; exact Hlt.
    - destruct v as [|c v']; [simpl in Hge; lia|].
      rewrite andb_false_r. cbn [fst]. symmetry. now apply Nat.leb_le. }
  destruct (String.eqb (field_name field) "email").
  { destruct v as [|c v'].
    - rewrite isValidEmail_empty. cbn [negb].
      now destruct (field_required field).
    - rewrite andb_false_r. now destruct (isValidEmail (c :: v')). }
  destruct (String.eqb (field_name field) "phone").
  { destruct v as [|c v'].
    - rewrite isValidPhone_empty. cbn [negb].
      now destruct (field_required field).
    - rewrite andb_false_r. now destruct (isValidPhone (c :: v')). }
  destruct (String.eqb (field_name field) "message").
  { destruct (Nat.ltb_spec (length v) 10) as [Hlt|Hge].
    - assert (E : (10 <=? length v)%nat = false) by (apply Nat.leb_gt; exact Hlt).
      rewrite E. now destruct (field_required field && _)%bool.
    - assert (E : (10 <=? length v)%nat = true) by (apply Nat.leb_le; exact Hge).
      rewrite E.
      destruct v as [|c v']; [simpl in Hge; lia|].
      rewrite andb_false_r.
      destruct (Nat.ltb_spec 1000 (length (c :: v'))) as [Hgt|Hle]; cbn [fst andb];
        symmetry; [apply Nat.leb_gt | apply Nat.leb_le]; assumption. }
  now destruct (field_required field && _)%bool.
Qed.

Example name_of_one_letter_invalid :
  fst (validateField sample_name_field sample_elements) = false.
Proof. reflexivity. Qed.

Example email_with_spaces_around_valid :
  fst (validateField sample_email_field sample_elements) = true.
Proof. reflexivity. Qed.

(** The message computed for an invalid field is never empty. *)
Lemma field_verdict_message (field : Field) :
  fst (field_verdict field) = false -> snd (field_verdict field) <> ""%string.
Proof.
  unfold field_verdict.
  repeat match goal with
         | |- context [if ?b then _ else _] => destruct b
         end;
    cbn; intros Hv Hm; try discriminate Hv; discriminate Hm.
Qed.

Lemma validateField_unfold (field : Field) (doc : Elements) :
  validateField field doc =
  (fst (field_verdict field),
   if fst (field_verdict field) then clearFieldError field doc
   else showFieldError field (snd (field_verdict field)) doc).
Proof.
  unfold validateField. now destruct (field_verdict field) as [b m].
Qed.

(** The marks a validation leaves on a field that has an error element. *)
Lemma validateField_marked (field : Field) (doc : Elements) :
  getElementById (errorId field) doc <> None ->
  let valid := fst (validateField field doc) in
  let field' := fst (snd (validateField field doc)) in
  let doc' := snd (snd (validateField field doc)) in
  field_aria_invalid field' = Some (if valid then "false" else "true")%string /\
  classList_contains FORM_CLASSES.ERROR (field_classList field') = negb valid /\
  (exists message,
     getElementById (errorId field') doc' = Some message /\
     (message = ""%string <-> valid = true)) /\
  field_value field' = field_value field.
Proof.
  intros Hel. cbn zeta. rewrite validateField_unfold. cbn [fst snd].
  destruct (fst (field_verdict field)) eqn:Ev.
  - unfold clearFieldError.
    destruct (getElementById (errorId field) doc) eqn:E; [|contradiction].
    cbn [fst snd field_set_marks field_aria_invalid field_classList field_value].
    split; [reflexivity|].
    split; [apply classList_contains_remove|].
    split; [|reflexivity].
    exists ""%string. split; [|now split].
    change (errorId (field_set_marks field "false" _)) with (errorId field).
    apply getElementById_set_same. rewrite E. discriminate.
  - unfold showFieldError.
    destruct (getElementById (errorId field) doc) eqn:E; [|contradiction].
    cbn [fst snd field_set_marks field_aria_invalid field_classList field_value].
    split; [reflexivity|].
    split; [apply classList_contains_add|].
    split; [|reflexivity].
    exists (snd (field_verdict field)). split.
    + change (errorId (field_set_marks field "true" _)) with (errorId field).
      apply getElementById_set_same. rewrite E. discriminate.
    + split; [|discriminate].
      intros Hm. now apply field_verdict_message in Hm.
Qed.

(** X12. When the field has an error element, [validateField] leaves the
    three marks in agreement with its verdict: [aria-invalid] is ["true"]
    for an invalid field and ["false"] for a valid one, the [error] class
    is present exactly on an invalid field, and the error element holds a
    non-empty message exactly for an invalid field. *)
Theorem validateField_marks (field : Field) (doc : Elements) :
  getElementById (errorId field) doc <> None ->
  let valid := fst (validateField field doc) in
  let field' := fst (snd (validateField field doc)) in
  let doc' := snd (snd (validateField field doc)) in
  field_aria_invalid field' = Some (if valid then "false" else "true")%string /\
  classList_contains FORM_CLASSES.ERROR (field_classList field') = negb valid /\
  (exists message,
     getElementById (errorId field') doc' = Some message /\
     (message = ""%string <-> valid = true)) /\
  field_value field' = field_value field.
Proof.
  exact (validateField_marked field doc).
Qed.

Lemma validateField_marks_witness :
  field_aria_invalid (fst (snd (validateField sample_name_field sample_elements)))
  = Some "true"%string.
Proof.
  assert (Hel : getElementById (errorId sample_name_field) sample_elements <> None)
    by (vm_compute; discriminate).
  exact (proj1 (validateField_marks sample_name_field sample_elements Hel)).
Defined.

(** A validation without error element. *)
Lemma validateField_unmarked (field : Field) (doc : Elements) :
  getElementById (errorId field) doc = None ->
  snd (validateField field doc) = (field, doc) /\
  fst (validateField field doc) = fst (field_verdict field).
Proof.
  intros Hnone. rewrite validateField_unfold. cbn [fst snd].
  unfold clearFieldError, showFieldError. rewrite Hnone.
  now destruct (fst (field_verdict field)).
Qed.

(** X13. Without an error element for the field, [validateField] still
    returns its verdict but marks nothing: the field and the document are
    left untouched, so an invalid field gets neither [aria-invalid] nor
    the [error] class. *)
Theorem validateField_without_error_element (field : Field) (doc : Elements) :
  getElementById (errorId field) doc = None ->
  snd (validateField field doc) = (field, doc) /\
  fst (validateField field doc) = fst (field_verdict field).
Proof.
  exact (validateField_unmarked field doc).
Qed.

Lemma validateField_without_error_element_witness :
  validateField sample_name_field [] = (false, (sample_name_field, [])).
Proof.
  assert (Hnone : getElementById (errorId sample_name_field) [] = None)
    by reflexivity.
  pose proof (validateField_without_error_element sample_name_field [] Hnone)
    as [Hsnd Hfst].
  rewrite (surjective_pairing (validateField sample_name_field [])).
  rewrite Hsnd, Hfst. reflexivity.
Defined.

Lemma field_verdict_marks (field : Field) (invalid : string) (classes : list string) :
  field_verdict (field_set_marks field invalid classes) = field_verdict field.
Proof. reflexivity. Qed.

(** X14. [validateField] is idempotent: validating again the field and the
    document a first validation left gives the same verdict and changes
    nothing more. *)
Theorem validateField_idempotent (field : Field) (doc : Elements) :
  validateField (fst (snd (validateField field doc)))
                (snd (snd (validateField field doc)))
  = validateField field doc.
Proof.
  rewrite (validateField_unfold field doc). cbn [fst snd].
  destruct (getElementById (errorId field) doc) as [t|] eqn:E.
  - assert (Hex : getElementById (errorId field) doc <> None)
      by (rewrite E; discriminate).
    destruct (fst (field_verdict field)) eqn:Ev.
    + unfold clearFieldError at 1 2 3. rewrite E. cbn [fst snd].
      rewrite validateField_unfold, field_verdict_marks, Ev.
      unfold clearFieldError.
      change (errorId (field_set_marks field "false" _)) with (errorId field).
      rewrite (getElementById_set_same _ _ _ Hex).
      unfold field_set_marks.
      cbn [field_id field_name field_value field_defaultValue field_required
           field_aria_invalid field_classList].
      now rewrite classList_remove_idempotent, set_textContent_twice.
    + unfold showFieldError at 1 2 3. rewrite E. cbn [fst snd].
      rewrite validateField_unfold, field_verdict_marks, Ev.
      unfold showFieldError.
      change (errorId (field_set_marks field "true" _)) with (errorId field).
      rewrite (getElementById_set_same _ _ _ Hex).
      unfold field_set_marks.
      cbn [field_id field_name field_value field_defaultValue field_required
           field_aria_invalid field_classList].
      now rewrite classList_add_idempotent, set_textContent_twice.
  - assert (Hsame : (if fst (field_verdict field) then clearFieldError field doc
                     else showFieldError field (snd (field_verdict field)) doc)
                    = (field, doc)).
    { unfold clearFieldError, showFieldError. rewrite E.
      now destruct (fst (field_verdict field)). }
    rewrite Hsame. cbn [fst snd]. rewrite validateField_unfold. now rewrite Hsame.
Qed.

(** What a validation leaves alone in the flat document. *)
Lemma validateField_keeps (field : Field) (doc : Elements) (id0 : string) :
  let field' := fst (snd (validateField field doc)) in
  let doc' := snd (snd (validateField field doc)) in
  field_value field' = field_value field /\
  field_defaultValue field' = field_defaultValue field /\
  field_id field' = field_id field /\
  field_name field' = field_name field /\
  field_required field' = field_required field /\
  (id0 <> errorId field -> getElementById id0 doc' = getElementById id0 doc) /\
  (getElementById id0 doc' = None <-> getElementById id0 doc = None).
Proof.
  cbn zeta. rewrite validateField_unfold. cbn [fst snd].
  unfold clearFieldError, showFieldError.
  destruct (fst (field_verdict field));
    destruct (getElementById (errorId field) doc); cbn [fst snd];
    repeat split; try tauto;
    try (intros Hne; now apply getElementById_set_other);
    try (now apply getElementById_set_exists).
Qed.

Lemma classList_contains_add_other (c e : string) (l : list string) :
  c <> e -> classList_contains c (classList_add e l) = classList_contains c l.
Proof.
  intros Hne. unfold classList_add.
  destruct (classList_contains e l); [reflexivity|].
  unfold classList_contains. rewrite existsb_app. simpl.
  destruct (String.eqb_spec c e) as [E|_]; [contradiction|].
  now rewrite !orb_false_r.
Qed.

Lemma classList_contains_remove_other (c e : string) (l : list string) :
  c <> e -> classList_contains c (classList_remove e l) = classList_contains c l.
Proof.
  intros Hne. unfold classList_contains, classList_remove.
  induction l as [|x l IH]; simpl; [reflexivity|].
  destruct (String.eqb_spec e x) as [E|_]; simpl.
  - subst x. destruct (String.eqb_spec c e) as [E|_]; [contradiction|].
    exact IH.
  - now rewrite IH.
Qed.

(** X15. [validateField] never alters what the user typed nor what
    identifies the field: value, default value, id, name and [required]
    are as before. Among the classes of the field only [error] can be
    added or removed, and the field's own error element, when it exists,
    still exists afterwards. *)
Theorem validateField_frame (field : Field) (doc : Elements) :
  let field' := fst (snd (validateField field doc)) in
  let doc' := snd (snd (validateField field doc)) in
  field_value field' = field_value field /\
  field_defaultValue field' = field_defaultValue field /\
  field_id field' = field_id field /\
  field_name field' = field_name field /\
  field_required field' = field_required field /\
  (forall c, c <> FORM_CLASSES.ERROR ->
             classList_contains c (field_classList field')
             = classList_contains c (field_classList field)) /\
  (getElementById (errorId field) doc <> None ->
   getElementById (errorId field') doc' <> None).
Proof.
  cbn zeta. rewrite validateField_unfold. cbn [fst snd].
  unfold clearFieldError, showFieldError.
  destruct (fst (field_verdict field));
    destruct (getElementById (errorId field) doc) as [text|] eqn:E;
    cbn [fst snd field_set_marks field_value field_defaultValue field_id
         field_name field_required field_classList];
    (split; [reflexivity|]); (split; [reflexivity|]); (split; [reflexivity|]);
    (split; [reflexivity|]); (split; [reflexivity|]); split;
    try (intros c Hc; reflexivity);
    try (intros c Hc; now apply classList_contains_remove_other);
    try (intros c Hc; now apply classList_contains_add_other);
    try (intros H; now elim H);
    intros _;
    change (errorId (field_set_marks field _ _)) with (errorId field);
    rewrite getElementById_set_same by (rewrite E; discriminate);
    discriminate.
Qed.

Lemma validateField_frame_witness :
  let field := mkField "name" "name" (units "A") [] true None ["input"%string] in
  let field' := fst (snd (validateField field sample_elements)) in
  classList_contains "error" (field_classList field') = true /\
  classList_contains "input" (field_classList field') = true /\
  getElementById "name-error" (snd (snd (validateField field sample_elements))) <> None.
Proof.
  cbn zeta.
  destruct (validateField_frame
              (mkField "name" "name" (units "A") [] true None ["input"%string])
              sample_elements) as [_ [_ [_ [_ [_ [Hclasses Hexists]]]]]].
  split; [reflexivity|]. split.
  - rewrite (Hclasses "input"%string); [reflexivity | discriminate].
  - apply Hexists. vm_compute. discriminate.
Defined.

(** ** Submission *)

Lemma validateField_verdict_only (field : Field) (doc : Elements) :
  fst (validateField field doc) = fst (field_verdict field).
Proof. now rewrite validateField_unfold. Qed.

(** What [validate_fields] does to the whole list: the form is valid when
    every field is, no field is skipped, and each field is marked by its
    own verdict. *)
Lemma validate_fields_spec (fs : list Field) :
  forall doc : Elements,
    fst (validate_fields fs doc) = forallb (fun f => fst (field_verdict f)) fs /\
    length (fst (snd (validate_fields fs doc))) = length fs /\
    (forall id0,
       getElementById id0 (snd (snd (validate_fields fs doc))) = None <->
       getElementById id0 doc = None) /\
    (forall j f,
       nth_error fs j = Some f ->
       exists f',
         nth_error (fst (snd (validate_fields fs doc))) j = Some f' /\
         field_value f' = field_value f /\
         (getElementById (errorId f) doc <> None ->
          field_aria_invalid f'
          = Some (if fst (field_verdict f) then "false" else "true")%string /\
          classList_contains FORM_CLASSES.ERROR (field_classList f')
          = negb (fst (field_verdict f))) /\
         (getElementById (errorId f) doc = None -> f' = f)).
Proof.
  induction fs as [|field rest IH]; intros doc.
  - cbn. repeat split; try tauto. intros [|j] f H; discriminate H.
  - cbn [validate_fields].
    pose proof (validateField_verdict_only field doc) as Hv.
    pose proof (validateField_keeps field doc) as Hframe.
    destruct (validateField field doc) as [valid [field' doc']] eqn:Eval.
    cbn [fst snd] in Hv, Hframe.
    destruct (IH doc') as [IHv [IHlen [IHex IHnth]]].
    destruct (validate_fields rest doc') as [restValid [rest' doc'']] eqn:Erest.
    cbn [fst snd] in *.
    split; [cbn [forallb]; now rewrite Hv, IHv|].
    split; [cbn [length]; now rewrite IHlen|].
    split.
    { intros id0. rewrite IHex. apply (Hframe id0). }
    intros [|j] f Hnth.
    + cbn in Hnth. injection Hnth as <-.
      exists field'. split; [reflexivity|].
      split; [apply (Hframe ""%string)|].
      split.
      * intros Hel.
        pose proof (validateField_marked field doc Hel) as Hmarks.
        cbn zeta in Hmarks. rewrite Eval in Hmarks. cbn [fst snd] in Hmarks.
        destruct Hmarks as [Ha [Hc _]]. rewrite Hv in Ha, Hc. now split.
      * intros Hnone.
        pose proof (validateField_unmarked field doc Hnone) as [Hs _].
        rewrite Eval in Hs. cbn [snd] in Hs. now injection Hs as -> _.
    + cbn in Hnth. destruct (IHnth j f Hnth) as [f' [Hf' [Hval [Hmark Hkeep]]]].
      exists f'. split; [exact Hf'|]. split; [exact Hval|]. split.
      * intros Hel. apply Hmark. intros Hnone. apply Hel.
        now apply (Hframe (errorId f)).
      * intros Hnone. apply Hkeep. now apply (Hframe (errorId f)).
Qed.

Lemma onSubmit_start_unfold (form : Form) :
  onSubmit_start form =
  let r := validate_fields (fields form) (elements form) in
  if negb (fst r) then
    match formStatus form with
    | None =>
        (SubmitThrow "TypeError",
         mkForm (fst (snd r)) (snd (snd r)) (formStatus form) (submitButton form))
    | Some _ =>
        (Rejected,
         mkForm (fst (snd r)) (snd (snd r))
           (Some (mkStatus "Please correct the errors above"
                    ("form-status " ++ FORM_CLASSES.ERROR)))
           (submitButton form))
    end
  else
    match submitButton form with
    | None =>
        (SubmitThrow "TypeError",
         mkForm (fst (snd r)) (snd (snd r)) (formStatus form) (submitButton form))
    | Some button =>
        (Awaiting,
         mkForm (fst (snd r)) (snd (snd r)) (formStatus form)
           (Some (mkButton (Some "true"%string) true
                    (classList_add FORM_CLASSES.LOADING (button_classList button)))))
    end.
Proof.
  unfold onSubmit_start.
  now destruct (validate_fields (fields form) (elements form)) as [v [fs doc]].
Qed.

(** X16. Submitting a form with at least one invalid field is rejected
    synchronously: the status element announces the errors with the
    [error] class, the submit button is not touched, and every field, not
    only the first invalid one, has been validated and marked by its own
    verdict, its value unchanged. *)
Theorem submit_invalid_form (form : Form) (status : StatusElement) :
  formStatus form = Some status ->
  forallb (fun f => fst (field_verdict f)) (fields form) = false ->
  let form' := snd (onSubmit_start form) in
  fst (onSubmit_start form) = Rejected /\
  formStatus form'
  = Some (mkStatus "Please correct the errors above" "form-status error") /\
  submitButton form' = submitButton form /\
  length (fields form') = length (fields form) /\
  (forall j f,
     nth_error (fields form) j = Some f ->
     getElementById (errorId f) (elements form) <> None ->
     exists f',
       nth_error (fields form') j = Some f' /\
       field_value f' = field_value f /\
       field_aria_invalid f'
       = Some (if fst (field_verdict f) then "false" else "true")%string).
Proof.
  intros Hstatus Hinvalid. cbn zeta.
  destruct (validate_fields_spec (fields form) (elements form))
    as [Hv [Hlen [_ Hnth]]].
  rewrite onSubmit_start_unfold. cbn zeta.
  rewrite Hv, Hinvalid, Hstatus. cbn [negb fst snd fields formStatus submitButton].
  repeat split; try assumption.
  intros j f Hj Hel. destruct (Hnth j f Hj) as [f' [Hf' [Hval [Hmark _]]]].
  exists f'. split; [exact Hf'|]. split; [exact Hval|]. now apply Hmark.
Qed.

Lemma submit_invalid_form_witness :
  fst (onSubmit_start sample_form) = Rejected /\
  submitButton (snd (onSubmit_start sample_form)) = Some (mkButton None false []).
Proof.
  pose proof (submit_invalid_form sample_form (mkStatus "" "form-status")
                eq_refl eq_refl) as [Hstep [_ [Hbutton _]]].
  split; [exact Hstep | exact Hbutton].
Defined.

(** X17. Submitting a form whose fields are all valid reaches the [await]
    with the button busy, disabled and carrying the [loading] class; the
    status element is not written yet, and every field with an error
    element has been cleared ([aria-invalid] false). *)
Theorem submit_valid_form (form : Form) (button : Button) :
  submitButton form = Some button ->
  forallb (fun f => fst (field_verdict f)) (fields form) = true ->
  let form' := snd (onSubmit_start form) in
  fst (onSubmit_start form) = Awaiting /\
  submitButton form'
  = Some (mkButton (Some "true"%string) true
            (classList_add FORM_CLASSES.LOADING (button_classList button))) /\
  formStatus form' = formStatus form /\
  (forall j f,
     nth_error (fields form) j = Some f ->
     getElementById (errorId f) (elements form) <> None ->
     exists f',
       nth_error (fields form') j = Some f' /\
       field_value f' = field_value f /\
       field_aria_invalid f' = Some "false"%string).
Proof.
  intros Hbutton Hvalid. cbn zeta.
  destruct (validate_fields_spec (fields form) (elements form))
    as [Hv [Hlen [_ Hnth]]].
  rewrite onSubmit_start_unfold. cbn zeta.
  rewrite Hv, Hvalid, Hbutton. cbn [negb fst snd fields formStatus submitButton].
  repeat split.
  intros j f Hj Hel. destruct (Hnth j f Hj) as [f' [Hf' [Hval [Hmark _]]]].
  exists f'. split; [exact Hf'|]. split; [exact Hval|].
  destruct (Hmark Hel) as [Ha _].
  assert (Hf : fst (field_verdict f) = true).
  { rewrite forallb_forall in Hvalid. apply Hvalid.
    eapply nth_error_In. exact Hj. }
  now rewrite Hf in Ha.
Qed.

Lemma submit_valid_form_witness :
  fst (onSubmit_start
         (mkForm [sample_email_field] sample_elements None
            (Some (mkButton None false ["btn"%string]))))
  = Awaiting.
Proof.
  apply (submit_valid_form
           (mkForm [sample_email_field] sample_elements None
              (Some (mkButton None false ["btn"%string])))
           (mkButton None false ["btn"%string])); reflexivity.
Defined.

(** What [clear_fields] does to the whole list. *)
Lemma clear_fields_spec (fs : list Field) :
  forall doc : Elements,
    (forall id0,
       getElementById id0 (snd (clear_fields fs doc)) = None <->
       getElementById id0 doc = None) /\
    (forall j f,
       nth_error fs j = Some f ->
       exists f',
         nth_error (fst (clear_fields fs doc)) j = Some f' /\
         field_value f' = field_value f /\
         (getElementById (errorId f) doc <> None ->
          field_aria_invalid f' = Some "false"%string /\
          classList_contains FORM_CLASSES.ERROR (field_classList f') = false) /\
         (getElementById (errorId f) doc = None -> f' = f)).
Proof.
  induction fs as [|field rest IH]; intros doc.
  - cbn. split; [tauto|]. intros [|j] f H; discriminate H.
  - cbn [clear_fields].
    assert (Hex : forall id0,
               getElementById id0 (snd (clearFieldError field doc)) = None <->
               getElementById id0 doc = None).
    { intros id0. unfold clearFieldError.
      destruct (getElementById (errorId field) doc); cbn [snd]; [|tauto].
      apply getElementById_set_exists. }
    destruct (clearFieldError field doc) as [field' doc'] eqn:Eclear.
    cbn [snd] in Hex.
    destruct (IH doc') as [IHex IHnth].
    destruct (clear_fields rest doc') as [rest' doc''] eqn:Erest.
    cbn [fst snd] in *.
    split.
    { intros id0. rewrite IHex. apply Hex. }
    intros [|j] f Hnth.
    + cbn in Hnth. injection Hnth as <-.
      exists field'. split; [reflexivity|].
      unfold clearFieldError in Eclear.
      destruct (getElementById (errorId field) doc) eqn:E;
        injection Eclear as <- <-.
      * split; [reflexivity|]. split; [|discriminate].
        intros _. split; [reflexivity|].
        apply classList_contains_remove.
      * split; [reflexivity|]. split; [contradiction | reflexivity].
    + cbn in Hnth. destruct (IHnth j f Hnth) as [f' [Hf' [Hval [Hmark Hkeep]]]].
      exists f'. split; [exact Hf'|]. split; [exact Hval|]. split.
      * intros Hel. apply Hmark. intros Hnone. apply Hel. now apply Hex.
      * intros Hnone. apply Hkeep. now apply Hex.
Qed.

Lemma classList_remove_add_absent (c : string) (l : list string) :
  classList_contains c l = false ->
  classList_remove c (classList_add c l) = l.
Proof.
  intros H. unfold classList_add. rewrite H.
  unfold classList_remove. rewrite filter_app. simpl.
  rewrite String.eqb_refl. simpl. rewrite app_nil_r.
  now apply classList_remove_absent.
Qed.

(** An error text that is empty stays empty while the fields are
    cleared. *)
Lemma clear_fields_keeps_empty (fs : list Field) :
  forall (doc : Elements) (id0 : string),
    getElementById id0 doc = Some ""%string ->
    getElementById id0 (snd (clear_fields fs doc)) = Some ""%string.
Proof.
  induction fs as [|field rest IH]; intros doc id0 H; [exact H|].
  cbn [clear_fields].
  assert (Hstep : getElementById id0 (snd (clearFieldError field doc)) = Some ""%string).
  { unfold clearFieldError.
    destruct (getElementById (errorId field) doc) eqn:E; cbn [snd]; [|exact H].
    destruct (String.eqb_spec id0 (errorId field)) as [->|Hne].
    - apply getElementById_set_same. rewrite E. discriminate.
    - now rewrite getElementById_set_other. }
  destruct (clearFieldError field doc) as [field' doc'].
  cbn [snd] in Hstep. specialize (IH doc' id0 Hstep).
  destruct (clear_fields rest doc') as [rest' doc''].
  exact IH.
Qed.

(** Clearing the fields empties the error element of each of them. *)
Lemma clear_fields_emptied (fs : list Field) :
  forall (doc : Elements) (f : Field),
    In f fs ->
    getElementById (errorId f) doc <> None ->
    getElementById (errorId f) (snd (clear_fields fs doc)) = Some ""%string.
Proof.
  induction fs as [|field rest IH]; intros doc f Hin Hel; [destruct Hin|].
  cbn [clear_fields].
  pose proof (clear_fields_keeps_empty rest (snd (clearFieldError field doc))) as Hkeep.
  assert (Hex : forall id0,
             getElementById id0 (snd (clearFieldError field doc)) = None <->
             getElementById id0 doc = None).
  { intros id0. unfold clearFieldError.
    destruct (getElementById (errorId field) doc); cbn [snd]; [|tauto].
    apply getElementById_set_exists. }
  assert (Hown : getElementById (errorId field) doc <> None ->
                 getElementById (errorId field) (snd (clearFieldError field doc))
                 = Some ""%string).
  { intros H. unfold clearFieldError.
    destruct (getElementById (errorId field) doc) eqn:E; [|contradiction].
    cbn [snd]. apply getElementById_set_same. rewrite E. discriminate. }
  specialize (IH (snd (clearFieldError field doc)) f).
  destruct (clearFieldError field doc) as [field' doc'].
  cbn [snd] in *.
  destruct (clear_fields rest doc') as [rest' doc''] eqn:Erest.
  cbn [snd] in *.
  destruct Hin as [<- | Hin].
  - apply Hkeep. now apply Hown.
  - apply IH; [exact Hin|]. intros Hnone. apply Hel. now apply Hex.
Qed.

(** X18. When the simulated request completes and the page has its status
    element and button, the handler ends normally: the status announces
    success with the [success] class; every captured field is back at its
    default value and, where it has an error element, carries
    [aria-invalid] false, no [error] class and an emptied error text; the
    button is enabled again, not busy and without the [loading] class. *)
Theorem submit_resume_success (form : Form) (status : StatusElement) (button : Button) :
  formStatus form = Some status ->
  submitButton form = Some button ->
  let form' := snd (onSubmit_resume form) in
  fst (onSubmit_resume form) = Normal tt /\
  formStatus form'
  = Some (mkStatus "Thank you! Your message has been sent successfully."
            "form-status success") /\
  submitButton form'
  = Some (mkButton (Some "false"%string) false
            (classList_remove FORM_CLASSES.LOADING (button_classList button))) /\
  (forall j f,
     nth_error (fields form) j = Some f ->
     exists f',
       nth_error (fields form') j = Some f' /\
       field_value f' = field_defaultValue f /\
       (getElementById (errorId f) (elements form) <> None ->
        field_aria_invalid f' = Some "false"%string /\
        classList_contains FORM_CLASSES.ERROR (field_classList f') = false /\
        getElementById (errorId f) (elements form') = Some ""%string)).
Proof.
  intros Hstatus Hbutton. cbn zeta.
  unfold onSubmit_resume. rewrite Hstatus.
  destruct (clear_fields_spec (map reset_field (fields form)) (elements form))
    as [_ Hnth].
  pose proof (clear_fields_emptied (map reset_field (fields form)) (elements form))
    as Hemptied.
  destruct (clear_fields (map reset_field (fields form)) (elements form))
    as [fields' doc'] eqn:Eclear.
  unfold submit_finally. cbn [submitButton]. rewrite Hbutton.
  cbn [fst snd fields formStatus submitButton elements] in *.
  split; [reflexivity|]. split; [reflexivity|]. split; [reflexivity|].
  intros j f Hj.
  destruct (Hnth j (reset_field f)) as [f' [Hf' [Hval [Hmark _]]]].
  { rewrite nth_error_map, Hj. reflexivity. }
  exists f'. split; [exact Hf'|]. split; [exact Hval|].
  intros Hel. destruct (Hmark Hel) as [Ha Hc].
  split; [exact Ha|]. split; [exact Hc|].
  apply (Hemptied (reset_field f)); [|exact Hel].
  apply in_map. eapply nth_error_In. exact Hj.
Qed.

Lemma submit_resume_success_witness :
  fst (onSubmit_resume pending_form) = Normal tt /\
  submitButton (snd (onSubmit_resume pending_form))
  = Some (mkButton (Some "false"%string) false ["btn"%string]) /\
  getElementById "name-error" (elements (snd (onSubmit_resume pending_form)))
  = Some ""%string /\
  exists f',
    nth_error (fields (snd (onSubmit_resume pending_form))) 0 = Some f' /\
    field_value f' = [] /\
    field_aria_invalid f' = Some "false"%string /\
    classList_contains "error" (field_classList f') = false.
Proof.
  pose proof (submit_resume_success pending_form (mkStatus "" "form-status")
                (mkButton (Some "true"%string) true ["btn"%string; "loading"%string])
                eq_refl eq_refl) as [Hc [_ [Hb Hfields]]].
  destruct (Hfields 0%nat _ eq_refl) as [f' [Hf' [Hval Hmarks]]].
  destruct Hmarks as [Ha [Hcls Htext]]; [vm_compute; discriminate|].
  split; [exact Hc|]. split; [exact Hb|]. split; [exact Htext|].
  exists f'. split; [exact Hf'|]. split; [exact Hval|].
  split; [exact Ha | exact Hcls].
Defined.

(** X19. The [finally] block always runs: even on a page without status
    element, where the continuation throws a [TypeError] and resets no
    field, the button is enabled again, not busy and without the
    [loading] class. *)
Theorem submit_resume_without_status (form : Form) (button : Button) :
  formStatus form = None ->
  submitButton form = Some button ->
  fst (onSubmit_resume form) = Throw "TypeError" /\
  submitButton (snd (onSubmit_resume form))
  = Some (mkButton (Some "false"%string) false
            (classList_remove FORM_CLASSES.LOADING (button_classList button))) /\
  fields (snd (onSubmit_resume form)) = fields form /\
  elements (snd (onSubmit_resume form)) = elements form.
Proof.
  intros Hstatus Hbutton.
  unfold onSubmit_resume, submit_finally. rewrite Hstatus, Hbutton.
  repeat split.
Qed.

Lemma submit_resume_without_status_witness :
  fst (onSubmit_resume
         (mkForm [sample_name_field] sample_elements None
            (Some (mkButton (Some "true"%string) true ["loading"%string]))))
  = Throw "TypeError" /\
  submitButton
    (snd (onSubmit_resume
            (mkForm [sample_name_field] sample_elements None
               (Some (mkButton (Some "true"%string) true ["loading"%string])))))
  = Some (mkButton (Some "false"%string) false []).
Proof.
  pose proof (submit_resume_without_status
                (mkForm [sample_name_field] sample_elements None
                   (Some (mkButton (Some "true"%string) true ["loading"%string])))
                (mkButton (Some "true"%string) true ["loading"%string])
                eq_refl eq_refl) as [Hc [Hb _]].
  split; [exact Hc | exact Hb].
Defined.

(** X20. A whole successful submission gives the button back as it was:
    for a valid form whose button does not carry the [loading] class
    beforehand, the button is disabled while the request is pending and,
    once it completes, is enabled with exactly its original classes. *)
Theorem submit_round_trip (form : Form) (status : StatusElement) (button : Button) :
  formStatus form = Some status ->
  submitButton form = Some button ->
  forallb (fun f => fst (field_verdict f)) (fields form) = true ->
  classList_contains FORM_CLASSES.LOADING (button_classList button) = false ->
  let pending := snd (onSubmit_start form) in
  let done := snd (onSubmit_resume pending) in
  fst (onSubmit_start form) = Awaiting /\
  (exists b, submitButton pending = Some b /\ button_disabled b = true) /\
  fst (onSubmit_resume pending) = Normal tt /\
  submitButton done
  = Some (mkButton (Some "false"%string) false (button_classList button)).
Proof.
  intros Hstatus Hbutton Hvalid Hloading. cbn zeta.
  destruct (validate_fields_spec (fields form) (elements form)) as [Hv _].
  rewrite onSubmit_start_unfold. cbn zeta.
  rewrite Hv, Hvalid, Hbutton. cbn [negb fst snd].
  split; [reflexivity|].
  split; [eexists; split; reflexivity|].
  unfold onSubmit_resume. cbn [formStatus]. rewrite Hstatus.
  destruct (clear_fields _ _) as [fields' doc'].
  unfold submit_finally. cbn [submitButton fst snd button_classList].
  now rewrite classList_remove_add_absent.
Qed.

Lemma submit_round_trip_witness :
  submitButton
    (snd (onSubmit_resume
            (snd (onSubmit_start
                    (mkForm [sample_email_field] sample_elements
                       (Some (mkStatus "" "form-status"))
                       (Some (mkButton None false ["btn"%string])))))))
  = Some (mkButton (Some "false"%string) false ["btn"%string]).
Proof.
  apply (submit_round_trip
           (mkForm [sample_email_field] sample_elements
              (Some (mkStatus "" "form-status"))
              (Some (mkButton None false ["btn"%string])))
           (mkStatus "" "form-status")
           (mkButton None false ["btn"%string])); reflexivity.
Defined.


(** * Properties of the mobile menu *)

Lemma classList_remove_appended (c : string) (l : list string) :
  classList_contains c l = false ->
  classList_remove c (l ++ [c]) = l.
Proof.
  intros H. unfold classList_remove. rewrite filter_app. simpl.
  rewrite String.eqb_refl. simpl. rewrite app_nil_r.
  now apply classList_remove_absent.
Qed.

Lemma classList_contains_appended (c : string) (l : list string) :
  classList_contains c (l ++ [c]) = true.
Proof.
  unfold classList_contains. rewrite existsb_app. simpl.
  rewrite String.eqb_refl. now rewrite orb_true_r.
Qed.

(** From a [nav] that is not active in the markup, the menu only ever is
    in one of two states. *)
Lemma menu_two_states (classes : list string) (events : list MenuEvent) :
  classList_contains CONFIG.CLASSES.ACTIVE classes = false ->
  forall m : Menu,
    m = mkMenu "false" classes \/
    m = mkMenu "true" (classes ++ [CONFIG.CLASSES.ACTIVE]) ->
    menu_run events m = mkMenu "false" classes \/
    menu_run events m = mkMenu "true" (classes ++ [CONFIG.CLASSES.ACTIVE]).
Proof.
  intros Hfree. unfold menu_run.
  induction events as [|e events IH]; intros m Hm; [exact Hm|].
  cbn [fold_left]. apply IH.
  destruct Hm as [-> | ->]; destruct e as [| |key]; cbn [menu_handle].
  - right. unfold hamburger_click, classList_toggle. cbn [nav_classList].
    rewrite Hfree. unfold classList_add. now rewrite Hfree.
  - left. unfold navLink_click. cbn [nav_classList].
    now rewrite classList_remove_absent.
  - left. unfold menu_keydown. cbn [nav_classList].
    now rewrite Hfree, andb_false_r.
  - left. unfold hamburger_click, classList_toggle. cbn [nav_classList].
    rewrite classList_contains_appended.
    now rewrite classList_remove_appended.
  - left. unfold navLink_click. cbn [nav_classList].
    now rewrite classList_remove_appended.
  - unfold menu_keydown. cbn [nav_classList].
    rewrite classList_contains_appended, andb_true_r.
    destruct (String.eqb key "Escape"); [left | now right].
    now rewrite classList_remove_appended.
Qed.

(** X21. When the [nav] is not marked active in the markup, whatever the
    sequence of hamburger clicks, link clicks and key presses after
    [initMobileMenu]: [aria-expanded] is ["true"] or ["false"], it is
    ["true"] exactly when the [nav] carries the [active] class, and two
    hamburger clicks in a row give back the same menu. *)
Theorem menu_in_sync (classes : list string) (events : list MenuEvent) :
  classList_contains CONFIG.CLASSES.ACTIVE classes = false ->
  exists m0,
    initMobileMenu (Some classes) = Some m0 /\
    let m := menu_run events m0 in
    (hamburger_aria_expanded m = "true"%string \/
     hamburger_aria_expanded m = "false"%string) /\
    (hamburger_aria_expanded m = "true"%string <->
     classList_contains CONFIG.CLASSES.ACTIVE (nav_classList m) = true) /\
    hamburger_click (hamburger_click m) = m.
Proof.
  intros Hfree. exists (mkMenu "false" classes). split; [reflexivity|].
  cbn zeta.
  destruct (menu_two_states classes events Hfree (mkMenu "false" classes))
    as [-> | ->]; [now left | |].
  - cbn [hamburger_aria_expanded nav_classList].
    split; [now right|]. split.
    + rewrite Hfree. split; discriminate.
    + unfold hamburger_click, classList_toggle.
      cbn [hamburger_aria_expanded nav_classList].
      rewrite Hfree. unfold classList_add at 1 2. rewrite Hfree.
      rewrite classList_contains_appended.
      now rewrite classList_remove_appended.
  - cbn [hamburger_aria_expanded nav_classList].
    split; [now left|]. split.
    + rewrite classList_contains_appended. now split.
    + unfold hamburger_click, classList_toggle.
      cbn [hamburger_aria_expanded nav_classList].
      rewrite classList_contains_appended.
      rewrite classList_remove_appended by exact Hfree.
      rewrite Hfree. unfold classList_add. now rewrite Hfree.
Qed.

Lemma menu_in_sync_witness :
  menu_run [HamburgerClick; MenuKeydown "Escape"; HamburgerClick]
    (mkMenu "false" ["main-nav"%string])
  = mkMenu "true" ["main-nav"%string; "active"%string].
Proof.
  destruct (menu_in_sync ["main-nav"%string]
              [HamburgerClick; MenuKeydown "Escape"; HamburgerClick] eq_refl)
    as [m0 [Hinit _]].
  injection Hinit as <-. reflexivity.
Defined.

(** * Properties of lazy loading *)

Lemma nth_error_update_at {A : Type} (f : A -> A) (l : list A) :
  forall i j : nat,
    nth_error (update_at f i l) j
    = if Nat.eqb i j then option_map f (nth_error l j) else nth_error l j.
Proof.
  induction l as [|x l IH]; intros i j.
  - destruct i, j; cbn; try reflexivity; now destruct (Nat.eqb i j).
  - destruct i as [|i], j as [|j]; cbn; try reflexivity. apply IH.
Qed.

Lemma load_image_idempotent (img : LazyImage) :
  load_image (load_image img) = load_image img.
Proof.
  unfold load_image.
  destruct (dataset_src img) as [v|] eqn:E.
  - destruct (String.eqb v "") eqn:Ev;
      cbn [dataset_src lazy_src lazy_classList]; rewrite ?E, ?Ev;
      now rewrite classList_add_idempotent.
  - cbn [dataset_src lazy_src lazy_classList].
    now rewrite classList_add_idempotent.
Qed.

(** The callback, image by image. *)
Lemma imageObserver_callback_nth (entries : list Entry) :
  forall (imgs : list LazyImage) (j : nat) (img : LazyImage),
    nth_error imgs j = Some img ->
    nth_error (imageObserver_callback entries imgs) j
    = Some (if existsb (fun e => isIntersecting e && Nat.eqb (entry_target e) j)%bool
                 entries
            then load_image img else img).
Proof.
  induction entries as [|e entries IH]; intros imgs j img Hj; [exact Hj|].
  cbn [imageObserver_callback existsb].
  destruct (isIntersecting e); cbn [andb orb].
  - destruct (Nat.eqb (entry_target e) j) eqn:Et; cbn [orb].
    + rewrite (IH _ j (load_image img)).
      * rewrite load_image_idempotent. now destruct (existsb _ entries).
      * now rewrite nth_error_update_at, Et, Hj.
    + apply IH. now rewrite nth_error_update_at, Et.
  - now apply IH.
Qed.

(** X22. After the observer callback has run over a batch of entries, an
    image that some entry reports as intersecting is visible and no longer
    observed, and carries the address of its non-empty [data-src], which
    is removed; several entries for the same image act as one. An image
    that no entry reports as intersecting is exactly as before. *)
Theorem imageObserver_callback_effect (entries : list Entry) (imgs : list LazyImage)
    (j : nat) (img : LazyImage) :
  nth_error imgs j = Some img ->
  exists img',
    nth_error (imageObserver_callback entries imgs) j = Some img' /\
    ((exists e, In e entries /\ isIntersecting e = true /\ entry_target e = j) ->
     observed img' = false /\
     classList_contains LAZY_CLASSES.VISIBLE (lazy_classList img') = true /\
     (forall v, dataset_src img = Some v -> v <> ""%string ->
                lazy_src img' = v /\ dataset_src img' = None) /\
     (dataset_src img = None \/ dataset_src img = Some ""%string ->
      lazy_src img' = lazy_src img /\ dataset_src img' = dataset_src img)) /\
    ((forall e, In e entries -> isIntersecting e = true -> entry_target e <> j) ->
     img' = img).
Proof.
  intros Hj. eexists. split; [exact (imageObserver_callback_nth entries imgs j img Hj)|].
  split.
  - intros [e [He [Hi Ht]]].
    assert (Hex : existsb (fun e => isIntersecting e && Nat.eqb (entry_target e) j)%bool
                    entries = true).
    { apply existsb_exists. exists e. split; [exact He|].
      rewrite Hi, Ht. cbn. apply Nat.eqb_refl. }
    rewrite Hex. unfold load_image.
    split; [now destruct (dataset_src img) as [v|]; [destruct (String.eqb v "")|]|].
    split.
    { destruct (dataset_src img) as [v|]; [destruct (String.eqb v "")|];
        cbn [lazy_classList]; apply classList_contains_add. }
    split.
    + intros v Hv Hne. rewrite Hv.
      destruct (String.eqb_spec v "") as [E|_]; [contradiction|]. now split.
    + intros [Hd | Hd]; rewrite Hd; cbn; now split.
  - intros Hnone.
    destruct (existsb (fun e => isIntersecting e && Nat.eqb (entry_target e) j)%bool
                entries) eqn:Hex; [|reflexivity].
    apply existsb_exists in Hex as [e [He Hb]].
    apply andb_true_iff in Hb as [Hi Ht]. apply Nat.eqb_eq in Ht.
    now destruct (Hnone e He Hi).
Qed.

Lemma imageObserver_callback_effect_witness :
  exists img',
    nth_error
      (imageObserver_callback [mkEntry 0 true; mkEntry 0 true]
         [mkLazyImage "placeholder.gif" (Some "images/pool.jpg"%string) [] true])
      0 = Some img' /\
    observed img' = false /\
    lazy_src img' = "images/pool.jpg"%string.
Proof.
  destruct (imageObserver_callback_effect [mkEntry 0 true; mkEntry 0 true]
              [mkLazyImage "placeholder.gif" (Some "images/pool.jpg"%string) [] true]
              0 _ eq_refl) as [img' [Hnth [Hhit _]]].
  exists img'. split; [exact Hnth|].
  destruct Hhit as [Hobs [_ [Hsrc _]]].
  - exists (mkEntry 0 true). split; [now left | now split].
  - split; [exact Hobs|].
    now apply (Hsrc "images/pool.jpg"%string).
Defined.

(** * White space around a form value *)

Lemma trimStart_whitespace (pre s : JsString) :
  forallb is_whitespace pre = true -> trimStart (pre ++ s) = trimStart s.
Proof.
  induction pre as [|c pre IH]; simpl; [reflexivity|].
  intros H. apply andb_true_iff in H as [Hc Hpre].
  rewrite Hc. now apply IH.
Qed.

Lemma trimStart_all_whitespace (s : JsString) :
  forallb is_whitespace s = true -> trimStart s = [].
Proof.
  intros H. rewrite <- (app_nil_r s). now rewrite trimStart_whitespace.
Qed.

(** Either the whole string is white space, or [trimStart] stops inside
    it and is not affected by what follows. *)
Lemma trimStart_app (s post : JsString) :
  forallb is_whitespace s = true \/
  (trimStart s <> [] /\ trimStart (s ++ post) = (trimStart s ++ post)%list).
Proof.
  induction s as [|c s IH]; simpl; [now left|].
  destruct (is_whitespace c) eqn:Hc; simpl.
  - exact IH.
  - right. split; [discriminate | reflexivity].
Qed.

Lemma trimEnd_whitespace (s post : JsString) :
  forallb is_whitespace post = true -> trimEnd (s ++ post) = trimEnd s.
Proof.
  intros H. unfold trimEnd. rewrite rev_app_distr.
  rewrite trimStart_whitespace; [reflexivity|].
  rewrite forallb_forall in *. intros x Hx. apply H. now apply in_rev.
Qed.

Lemma trim_padding (pre s post : JsString) :
  forallb is_whitespace pre = true ->
  forallb is_whitespace post = true ->
  trim (pre ++ s ++ post) = trim s.
Proof.
  intros Hpre Hpost. unfold trim.
  rewrite trimStart_whitespace by exact Hpre.
  destruct (trimStart_app s post) as [Hall | [_ Happ]].
  - rewrite (trimStart_all_whitespace s Hall).
    rewrite trimStart_all_whitespace; [reflexivity|].
    rewrite forallb_app. now rewrite Hall, Hpost.
  - rewrite Happ. now apply trimEnd_whitespace.
Qed.

Lemma trim_all_whitespace (s : JsString) :
  forallb is_whitespace s = true -> trim s = [].
Proof.
  intros H. unfold trim. now rewrite trimStart_all_whitespace.
Qed.

(** X23. White space around the value never matters: two fields with the
    same name and the same [required] attribute, whose values differ only
    by leading and trailing white space, get the same verdict and the same
    message. *)
Theorem verdict_ignores_padding (f1 f2 : Field) (pre post : JsString) :
  field_name f2 = field_name f1 ->
  field_required f2 = field_required f1 ->
  field_value f2 = (pre ++ field_value f1 ++ post)%list ->
  forallb is_whitespace pre = true ->
  forallb is_whitespace post = true ->
  field_verdict f2 = field_verdict f1.
Proof.
  intros Hname Hreq Hvalue Hpre Hpost.
  unfold field_verdict. rewrite Hname, Hreq, Hvalue.
  now rewrite (trim_padding pre (field_value f1) post Hpre Hpost).
Qed.

Lemma verdict_ignores_padding_witness :
  field_verdict sample_email_field
  = field_verdict
      (mkField "email" "email" (units "guest@example.com") [] true None []).
Proof.
  apply (verdict_ignores_padding
           (mkField "email" "email" (units "guest@example.com") [] true None [])
           sample_email_field (units "  ") (units " ")); reflexivity.
Defined.

(** X24. A required field whose value is empty or made of white space only
    is invalid, and the message is always "This field is required": it
    replaces the message of the rule for the field's name. *)
Theorem required_blank_field (field : Field) :
  field_required field = true ->
  forallb is_whitespace (field_value field) = true ->
  field_verdict field = (false, "This field is required"%string).
Proof.
  intros Hreq Hblank. unfold field_verdict.
  rewrite Hreq, (trim_all_whitespace _ Hblank). cbn [andb].
  repeat match goal with
         | |- context [if ?b then _ else _] => destruct b
         end; reflexivity.
Qed.

Lemma required_blank_field_witness :
  field_verdict (mkField "name" "name" (units "   ") [] true None [])
  = (false, "This field is required"%string).
Proof.
  apply (required_blank_field (mkField "name" "name" (units "   ") [] true None []));
    reflexivity.
Defined.

Example optional_blank_name_message :
  field_verdict (mkField "name" "name" (units "   ") [] false None [])
  = (false, "Name must be at least 2 characters"%string).
Proof. reflexivity. Qed.
